(** * A shallow embedding of the L4 load balancer

    The development follows the packages of the repository:
    - [balancer]: [internal/balancer] (selection algorithms, dispatcher);
    - [backend]:  [internal/backend]  (the registry of servers);
    - [health]:   [internal/health]   (the periodic health checker);
    - [pool]:     [pkg/pool]          (the per-backend connection pool).

    Go values are modelled directly: [uint64] as [Z] with its wrap-around
    written out, slices of values as lists, pointers as locations in an
    explicit store, and the network as an oracle passed to the functions
    that dial or read. *)

From Stdlib Require Import ZArith List Lia Bool String DecimalString.
From Stdlib Require Import Ascii DecimalPos DecimalZ.
From stdpp Require Import base tactics list.
Import ListNotations.

Local Open Scope Z_scope.

(** ** Go runtime conventions shared by the packages *)

(** [len(s)] of a slice, as a Go [int]. *)
Definition len {A : Type} (s : list A) : Z := Z.of_nat (length s).

(** A Go call either returns or panics (index out of range, division by
    zero). *)
Inductive outcome (A : Type) : Type :=
  | Returned (a : A)
  | Panicked.
Arguments Returned {A} a.
Arguments Panicked {A}.

(** [atomic.AddUint64(&v, delta)]: the new value, modulo 2^64. *)
Definition AddUint64 (v delta : Z) : Z := (v + delta) mod 2 ^ 64.

(** Go's [x % y] on unsigned integers panics when [y] is zero. *)
Definition urem (x y : Z) : outcome Z :=
  if y =? 0 then Panicked else Returned (x mod y).

(** A Go [int] (64 bits, two's complement): the value an arithmetic result
    wraps to. *)
Definition wrapInt (z : Z) : Z := (z + 2 ^ 63) mod 2 ^ 64 - 2 ^ 63.

(** [time.Duration] counts nanoseconds. *)
Definition Millisecond : Z := 1000000.
Definition Second : Z := 1000 * Millisecond.

(** ** internal/balancer *)

Module balancer.

(** [type Backend struct { Address string; Healthy bool }] *)
Record Backend : Type := mkBackend {
  Address : string;
  Healthy : bool
}.

(** [type RoundRobinAlgorithm struct { counter uint64 }] *)
Record RoundRobinAlgorithm : Type := mkRR { counter : Z }.

(** [NewRoundRobinAlgorithm]: the zero value of the struct. *)
Definition NewRoundRobinAlgorithm : RoundRobinAlgorithm := {| counter := 0 |}.

(** [type LeastConnectionsAlgorithm struct {}] *)
Inductive LeastConnectionsAlgorithm : Type := mkLC.

Definition NewLeastConnectionsAlgorithm : LeastConnectionsAlgorithm := mkLC.

(** The result [&healthy[index]] of a selection is a pointer into the
    slice [healthy] built by that call: the slice and the position. *)
Record BackendPtr : Type := mkPtr {
  base : list Backend;
  offset : Z
}.

(** Reading through the pointer ([backend.Address], [backend.Healthy]). *)
Definition deref (p : BackendPtr) : option Backend :=
  base p !! Z.to_nat (offset p).

(** [&s[i]]: panics when [i] is out of range. *)
Definition addressOf (s : list Backend) (i : Z) : outcome BackendPtr :=
  if (0 <=? i) && (i <? len s) then Returned {| base := s; offset := i |}
  else Panicked.

(** The loop
    [for _, backend := range backends { if backend.Healthy { healthy = append(healthy, backend) } }]
    with [healthy] as the accumulator. *)
Fixpoint collectHealthy (backends healthy : list Backend) : list Backend :=
  match backends with
  | [] => healthy
  | backend :: rest =>
      collectHealthy rest
        (if Healthy backend then healthy ++ [backend] else healthy)
  end.

(** [func (rr *RoundRobinAlgorithm) SelectBackend(backends []Backend) *Backend].
    [None] is Go's [nil]; the second component is the receiver after the
    call.  The length of a slice is a non-negative [int], so the conversion
    [uint64(len(healthy))] keeps its value. *)
Definition RoundRobin_SelectBackend (rr : RoundRobinAlgorithm)
    (backends : list Backend)
  : outcome (option BackendPtr) * RoundRobinAlgorithm :=
  if len backends =? 0 then (Returned None, rr)
  else
    let healthy := collectHealthy backends [] in
    if len healthy =? 0 then (Returned None, rr)
    else
      let c := AddUint64 (counter rr) 1 in
      (match urem c (len healthy) with
       | Returned index =>
           match addressOf healthy index with
           | Returned p => Returned (Some p)
           | Panicked => Panicked
           end
       | Panicked => Panicked
       end, {| counter := c |}).

(** [func (lc *LeastConnectionsAlgorithm) SelectBackend(backends []Backend) *Backend] *)
Definition LeastConnections_SelectBackend (lc : LeastConnectionsAlgorithm)
    (backends : list Backend)
  : outcome (option BackendPtr) * LeastConnectionsAlgorithm :=
  (Returned None, lc).

(** [type Algorithm interface { SelectBackend(backends []Backend) *Backend }] *)
Class Algorithm (A : Type) : Type := {
  SelectBackend : A -> list Backend -> outcome (option BackendPtr) * A
}.

#[export] Instance RoundRobin_Algorithm : Algorithm RoundRobinAlgorithm :=
  {| SelectBackend := RoundRobin_SelectBackend |}.

#[export] Instance LeastConnections_Algorithm : Algorithm LeastConnectionsAlgorithm :=
  {| SelectBackend := LeastConnections_SelectBackend |}.

(** [m] sequential calls of [SelectBackend] on the same slice: the results
    in call order and the algorithm state after the last call. *)
Fixpoint calls {A} `{Algorithm A} (alg : A) (backends : list Backend) (m : nat)
  : list (outcome (option BackendPtr)) * A :=
  match m with
  | O => ([], alg)
  | S m' =>
      let '(r, alg') := SelectBackend alg backends in
      let '(rs, alg'') := calls alg' backends m' in
      (r :: rs, alg'')
  end.

(** The result of call number [k] (counted from 1) of a sequence of calls. *)
Definition nthCall {A} `{Algorithm A} (alg : A) (backends : list Backend)
    (k : nat) : outcome (option BackendPtr) :=
  fst (SelectBackend (snd (calls alg backends (pred k))) backends).

(** Whether a result is the backend at position [i] of the healthy slice. *)
Definition selects (i : Z) (r : outcome (option BackendPtr)) : bool :=
  match r with
  | Returned (Some p) => offset p =? i
  | _ => false
  end.

(** How many of the results selected position [i]. *)
Definition timesSelected (i : Z) (rs : list (outcome (option BackendPtr))) : Z :=
  len (List.filter (selects i) rs).

(** The healthy candidates of a slice, in slice order. *)
Definition healthyOf (backends : list Backend) : list Backend :=
  List.filter Healthy backends.

(** The fairness property of [m] sequential round-robin calls: every
    healthy position is selected between [floor (m / n)] and
    [ceil (m / n)] times. *)
Definition fairCalls (rr : RoundRobinAlgorithm) (backends : list Backend)
    (m : nat) : Prop :=
  let n := len (healthyOf backends) in
  forall i, 0 <= i < n ->
    Z.of_nat m / n <= timesSelected i (fst (calls rr backends m))
    /\ timesSelected i (fst (calls rr backends m)) <= (Z.of_nat m + n - 1) / n.

(** The selected positions of a list of results ([-1] for nil), as the
    test [TestRoundRobinAlgorithm_SelectBackend] tabulates them. *)
Definition positions (rs : list (outcome (option BackendPtr))) : list Z :=
  map (fun r => match r with
                | Returned (Some p) => offset p
                | _ => -1
                end) rs.

(** The backends of the cases of [TestRoundRobinAlgorithm_SelectBackend]. *)
Definition threeHealthy : list Backend :=
  [ {| Address := "server1:8081"; Healthy := true |};
    {| Address := "server2:8082"; Healthy := true |};
    {| Address := "server3:8083"; Healthy := true |} ].

Definition mixedHealth : list Backend :=
  [ {| Address := "server1:8081"; Healthy := true |};
    {| Address := "server2:8082"; Healthy := false |};
    {| Address := "server3:8083"; Healthy := true |} ].

Definition allUnhealthy : list Backend :=
  [ {| Address := "server1:8081"; Healthy := false |};
    {| Address := "server2:8082"; Healthy := false |} ].

(** *** The dispatcher ([balancer.go]) *)

(** A [net.Conn] is named by its descriptor. *)
Definition Conn : Type := nat.

(** What a dispatcher can do to the network. *)
Inductive Event : Type :=
  | EvDial (addr : string)
  | EvRead (c : Conn)
  | EvWrite (c : Conn) (data : list Byte.byte)
  | EvClose (c : Conn).

(** [type LoadBalancer struct { listenAddr string; backends []Backend; algorithm Algorithm }] *)
Record LoadBalancer (A : Type) : Type := mkLB {
  listenAddr : string;
  backends : list Backend;
  algorithm : A
}.
Arguments mkLB {A} _ _ _.
Arguments listenAddr {A} _.
Arguments backends {A} _.
Arguments algorithm {A} _.

Definition NewLoadBalancer {A} `{Algorithm A} (listenAddr : string)
    (backends : list Backend) (algorithm : A) : LoadBalancer A :=
  {| listenAddr := listenAddr; backends := backends; algorithm := algorithm |}.

(** [func (lb *LoadBalancer) handleConnection(conn net.Conn)]: the body is
    the deferred [conn.Close()] and two TODO comments.  The result is the
    balancer after the call and the events of the call. *)
Definition handleConnection {A} `{Algorithm A} (lb : LoadBalancer A)
    (conn : Conn) : LoadBalancer A * list Event :=
  (lb, [EvClose conn]).

(** The accept loop of [Start], over the results of the successive
    [listener.Accept()] calls ([None] is an accept error, which the loop
    skips).  Each handler is started as a goroutine; [acceptLoop] is the
    run in which every handler runs to completion as soon as it is started.
    The runs under the other schedules are those of [runHandlers]. *)
Fixpoint acceptLoop {A} `{Algorithm A} (lb : LoadBalancer A)
    (accepts : list (option Conn)) : LoadBalancer A * list Event :=
  match accepts with
  | [] => (lb, [])
  | None :: rest => acceptLoop lb rest
  | Some conn :: rest =>
      let '(lb', evs) := handleConnection lb conn in
      let '(lb'', evs') := acceptLoop lb' rest in
      (lb'', evs ++ evs')
  end.

(** The events that forwarding a connection would produce: a dial to the
    selected backend and writes to either peer. *)
Definition isDial (e : Event) : bool :=
  match e with EvDial _ => true | _ => false end.
Definition isWrite (e : Event) : bool :=
  match e with EvWrite _ _ => true | _ => false end.

(** No backend was dialled and no byte was written. *)
Definition nothingForwarded (evs : list Event) : bool :=
  forallb (fun e => negb (isDial e || isWrite e)) evs.

(** The goroutines that the accept loop starts with
    [go lb.handleConnection(conn)]: one handler per accepted connection, in
    accept order; an accept error starts nothing. *)
Fixpoint spawned (accepts : list (option Conn)) : list Conn :=
  match accepts with
  | [] => []
  | None :: rest => spawned rest
  | Some conn :: rest => conn :: spawned rest
  end.

(** The handlers of the connections of [order], run one after the other in
    that order: the order in which the scheduler runs the goroutines.  (The
    body of a handler is the single deferred [conn.Close()], so two
    handlers do not interleave.) *)
Fixpoint runHandlers {A} `{Algorithm A} (lb : LoadBalancer A)
    (order : list Conn) : LoadBalancer A * list Event :=
  match order with
  | [] => (lb, [])
  | conn :: rest =>
      let '(lb', evs) := handleConnection lb conn in
      let '(lb'', evs') := runHandlers lb' rest in
      (lb'', evs ++ evs')
  end.

(** [func (lb *LoadBalancer) Start() error].  [listen] is the result of
    [net.Listen]: [None] when it fails (and [Start] returns the error),
    otherwise the results of the successive [Accept] calls of the listener.
    [order] is the order in which the scheduler runs the handlers that the
    loop starts, a rearrangement of [spawned accepts].  With a listener the
    function does not return; the result is then the state and the events
    once the handlers started for these accepts have run. *)
Definition Start {A} `{Algorithm A} (lb : LoadBalancer A)
    (listen : option (list (option Conn))) (order : list Conn)
  : option (LoadBalancer A * list Event) :=
  match listen with
  | None => None
  | Some accepts => Some (runHandlers lb order)
  end.

End balancer.

(** ** internal/backend *)

Module backend.

(** [type Server struct { Address string; Port int; Healthy bool; LastChecked time.Time }]
    ([LastChecked] in nanoseconds; the zero time is [0]). *)
Record Server : Type := mkServer {
  Address : string;
  Port : Z;
  Healthy : bool;
  LastChecked : Z
}.

(** A [*Server]: the position of the struct in the store. *)
Definition ptr : Type := nat.

(** A slice header of type [[]*Server]: the backing array it points to, its
    length and its capacity (every slice of this package starts at the
    beginning of its array). *)
Record Slice : Type := mkSlice {
  sarr : nat;
  slen : nat;
  scap : nat
}.

(** The store: the [Server] structs allocated so far and the backing arrays
    of the pointer slices ([None] is a nil slot). *)
Record Store : Type := mkStore {
  objects : list Server;
  arrays : list (list (option ptr))
}.

Definition emptyStore : Store := {| objects := []; arrays := [] |}.

(** [type Manager struct { servers []*Server }] *)
Record Manager : Type := mkManager { servers : Slice }.

(** The pointers a slice shows: the first [slen] slots of its array. *)
Definition elements (st : Store) (s : Slice) : list (option ptr) :=
  take (slen s) (default [] (arrays st !! sarr s)).

(** Reading a [*Server]. *)
Definition load (st : Store) (p : option ptr) : option Server :=
  match p with
  | Some l => objects st !! l
  | None => None
  end.

(** What a reader that ranges over the slice and reads every server sees. *)
Definition view (st : Store) (s : Slice) : list (option Server) :=
  map (load st) (elements st s).

(** [&Server{...}]: allocation of a struct. *)
Definition new (st : Store) (v : Server) : ptr * Store :=
  (length (objects st),
   {| objects := objects st ++ [v]; arrays := arrays st |}).

(** [make([]*Server, 0)] *)
Definition make0 (st : Store) : Slice * Store :=
  ({| sarr := length (arrays st); slen := 0; scap := 0 |},
   {| objects := objects st; arrays := arrays st ++ [[]] |}).

Section Runtime.

(** The capacity that [append] gives to the array it allocates when the
    old one (of the given capacity) is full; the Go runtime chooses it. *)
Variable growCap : nat -> nat.

(** [append(s, x)]: in place when the array has room, otherwise into a new
    array that receives a copy of the elements. *)
Definition append (st : Store) (s : Slice) (x : ptr) : Slice * Store :=
  if (slen s <? scap s)%nat then
    ({| sarr := sarr s; slen := S (slen s); scap := scap s |},
     {| objects := objects st;
        arrays := alter (fun a => <[slen s := Some x]> a) (sarr s) (arrays st) |})
  else
    let cap' := growCap (scap s) in
    let a' := elements st s ++ [Some x] ++ replicate (cap' - S (slen s)) None in
    ({| sarr := length (arrays st); slen := S (slen s); scap := cap' |},
     {| objects := objects st; arrays := arrays st ++ [a'] |}).

(** [func NewManager() *Manager] *)
Definition NewManager (st : Store) : Manager * Store :=
  let '(s, st') := make0 st in ({| servers := s |}, st').

(** [func (m *Manager) AddServer(address string, port int)] *)
Definition AddServer (m : Manager) (st : Store) (address : string) (port : Z)
  : Manager * Store :=
  let '(server, st1) :=
    new st {| Address := address; Port := port; Healthy := false;
              LastChecked := 0 |} in
  let '(s, st2) := append st1 (servers m) server in
  ({| servers := s |}, st2).

(** The loop of [GetHealthyServers] over the pointers of [m.servers]; the
    dereference [server.Healthy] of a nil or dangling pointer panics. *)
Fixpoint collectHealthy (st : Store) (ps : list (option ptr)) (healthy : Slice)
  : outcome (Slice * Store) :=
  match ps with
  | [] => Returned (healthy, st)
  | p :: rest =>
      match p, load st p with
      | Some l, Some server =>
          if Healthy server then
            let '(healthy', st') := append st healthy l in
            collectHealthy st' rest healthy'
          else collectHealthy st rest healthy
      | _, _ => Panicked
      end
  end.

(** [func (m *Manager) GetHealthyServers() []*Server] *)
Definition GetHealthyServers (m : Manager) (st : Store) : outcome (Slice * Store) :=
  let '(healthy, st') := make0 st in
  collectHealthy st' (elements st (servers m)) healthy.

(** A registry built by [NewManager] and one [AddServer] per entry. *)
Definition addAll (m : Manager) (st : Store) (entries : list (string * Z))
  : Manager * Store :=
  fold_left (fun ms e => AddServer (fst ms) (snd ms) (fst e) (snd e))
            entries (m, st).

Definition registry (entries : list (string * Z)) : Manager * Store :=
  let '(m, st) := NewManager emptyStore in addAll m st entries.

End Runtime.

(** [func (m *Manager) GetAllServers() []*Server]: returns [m.servers]. *)
Definition GetAllServers (m : Manager) : Slice := servers m.

(** The decimal form of an [int], as [%d] prints it. *)
Definition itoa (n : Z) : string :=
  DecimalString.NilZero.string_of_int (Z.to_int n).

(** [func (s *Server) GetAddress() string]: [fmt.Sprintf("%s:%d", s.Address, s.Port)] *)
Definition GetAddress (s : Server) : string :=
  (Address s ++ ":" ++ itoa (Port s))%string.

(** The identity of a server. *)
Definition identity (s : Server) : string * Z := (Address s, Port s).

(** The identities of the servers of a slice, in slice order. *)
Definition identities (st : Store) (s : Slice) : list (option (string * Z)) :=
  map (fmap identity) (view st s).

(** How a peer answers a TCP connection attempt: it accepts or refuses
    after some delay, or never answers. *)
Inductive Peer : Type :=
  | Accepts (delay : Z)
  | Refuses (delay : Z)
  | Silent.

(** The network, as seen from the dialer. *)
Definition Network : Type := string -> Peer.

(** [net.DialTimeout("tcp", addr, timeout)]: whether a connection was
    obtained, and how long the call took. *)
Definition DialTimeout (net : Network) (addr : string) (timeout : Z) : bool * Z :=
  match net addr with
  | Accepts d => if d <? timeout then (true, d) else (false, timeout)
  | Refuses d => if d <? timeout then (false, d) else (false, timeout)
  | Silent => (false, timeout)
  end.

(** [func (s *Server) IsReachable() bool], with the time the probe took. *)
Definition IsReachable (net : Network) (s : Server) : bool * Z :=
  DialTimeout net (GetAddress s) (5 * Second).

(** *** Invariants of the store *)

(** The array of a slice exists and is as long as the length and the
    capacity of the slice say. *)
Definition backed (st : Store) (s : Slice) : Prop :=
  exists a, arrays st !! sarr s = Some a
            /\ (slen s <= length a)%nat /\ (scap s <= length a)%nat.

(** Every slot a slice shows holds a pointer to an allocated [Server]. *)
Definition closed (st : Store) (s : Slice) : Prop :=
  Forall (fun p => exists l, p = Some l /\ (l < length (objects st))%nat)
         (elements st s).

(** [t] is a slice header taken earlier from the slice that is now [s]: it
    points to an existing array and, if that is still the array of [s], it
    is not longer than [s]. *)
Definition snapshotOf (st : Store) (s t : Slice) : Prop :=
  (sarr t < length (arrays st))%nat
  /\ (sarr t = sarr s -> (slen t <= slen s)%nat).

(** The test [server.Healthy] through a pointer, in a store where the
    pointer is valid. *)
Definition isHealthy (st : Store) (p : option ptr) : bool :=
  match load st p with
  | Some server => Healthy server
  | None => false
  end.

(** The growth of the capacity of a small slice in the Go runtime. *)
Definition doubling (c : nat) : nat := if (c =? 0)%nat then 1%nat else (2 * c)%nat.

End backend.

(** ** internal/health *)

Module health.
Import backend.

(** [type Checker struct { manager *backend.Manager; interval, timeout time.Duration; stopCh chan struct{} }].
    The manager is shared with the rest of the program: its current value
    is an argument of the functions that read it. *)
Record Checker : Type := mkChecker {
  interval : Z;
  timeout : Z
}.

(** [func NewChecker(manager *backend.Manager, interval, timeout time.Duration) *Checker] *)
Definition NewChecker (interval timeout : Z) : Checker :=
  {| interval := interval; timeout := timeout |}.

(** [func (c *Checker) checkServer(server *backend.Server)] at time [now]:
    the store after the call, the lines logged and the time the call took.
    A nil or dangling [server] panics. *)
Definition checkServer (c : Checker) (net : Network) (now : Z) (st : Store)
    (server : option ptr) : outcome (Store * list string * Z) :=
  match server, load st server with
  | Some l, Some s =>
      let s1 := {| Address := Address s; Port := Port s; Healthy := Healthy s;
                   LastChecked := now |} in
      let '(reachable, elapsed) := IsReachable net s1 in
      let logs :=
        if reachable then
          if negb (Healthy s1)
          then [("Server " ++ GetAddress s1 ++ " is now healthy")%string]
          else []
        else
          if Healthy s1
          then [("Server " ++ GetAddress s1 ++ " is now unhealthy")%string]
          else [] in
      let s2 := {| Address := Address s1; Port := Port s1; Healthy := reachable;
                   LastChecked := LastChecked s1 |} in
      Returned ({| objects := <[l := s2]> (objects st); arrays := arrays st |},
                logs, elapsed)
  | _, _ => Panicked
  end.

(** The loop of [checkAll] over the pointers of the slice. *)
Fixpoint checkEach (c : Checker) (net : Network) (now : Z) (st : Store)
    (ps : list (option ptr)) : outcome (Store * list string * Z) :=
  match ps with
  | [] => Returned (st, [], 0)
  | server :: rest =>
      match checkServer c net now st server with
      | Returned (st1, logs1, t1) =>
          match checkEach c net (now + t1) st1 rest with
          | Returned (st2, logs2, t2) => Returned (st2, logs1 ++ logs2, t1 + t2)
          | Panicked => Panicked
          end
      | Panicked => Panicked
      end
  end.

(** [func (c *Checker) checkAll()]: one check cycle, started at [now]. *)
Definition checkAll (c : Checker) (m : Manager) (net : Network) (now : Z)
    (st : Store) : outcome (Store * list string * Z) :=
  let servers := GetAllServers m in
  checkEach c net now st (elements st servers).

End health.

(** ** pkg/pool *)

Module pool.

(** A [net.Conn] is named by its descriptor. *)
Definition Conn : Type := nat.

(** The errors of [Get]: [ErrPoolExhausted], or the error of the dial. *)
Inductive error : Type :=
  | ErrPoolExhausted
  | ErrDial.

(** [type ConnectionPool struct { address string; maxSize int; connections chan net.Conn; mu sync.RWMutex; active int }].
    [connections] is the content of the buffered channel, oldest first; its
    capacity is [maxSize].  The pool is modelled while the channel is open
    (before any call of [Close]), one call at a time. *)
Record ConnectionPool : Type := mkPool {
  address : string;
  maxSize : Z;
  connections : list Conn;
  active : Z
}.

(** What one call finds on the network: the result of a one-byte read with
    a one-millisecond deadline on a connection, and the result of a dial to
    the backend (the new connection, or an error). *)
Inductive ReadResult : Type :=
  | ReadByte       (* a byte was pending: [err == nil] *)
  | ReadTimeout    (* nothing to read before the deadline *)
  | ReadEOF.       (* the peer has closed *)

Record Env : Type := mkEnv {
  read1 : Conn -> ReadResult;
  dial : option Conn
}.

(** What the pool does to the network. *)
Inductive Event : Type :=
  | EvDial (addr : string)
  | EvProbe (c : Conn)
  | EvClose (c : Conn).

(** [func NewConnectionPool(address string, maxSize int) *ConnectionPool];
    [make(chan net.Conn, maxSize)] panics on a negative size. *)
Definition NewConnectionPool (address : string) (maxSize : Z)
  : outcome ConnectionPool :=
  if maxSize <? 0 then Panicked
  else Returned {| address := address; maxSize := maxSize;
                   connections := []; active := 0 |}.

Definition setActive (p : ConnectionPool) (a : Z) : ConnectionPool :=
  {| address := address p; maxSize := maxSize p;
     connections := connections p; active := a |}.

Definition setConnections (p : ConnectionPool) (q : list Conn) : ConnectionPool :=
  {| address := address p; maxSize := maxSize p;
     connections := q; active := active p |}.

(** [func (p *ConnectionPool) createConnection() (net.Conn, error)] *)
Definition createConnection (p : ConnectionPool) (env : Env)
  : (Conn + error) * ConnectionPool * list Event :=
  if active p >=? maxSize p then (inr ErrPoolExhausted, p, [])
  else
    match dial env with
    | None => (inr ErrDial, p, [EvDial (address p)])
    | Some conn =>
        (inl conn, setActive p (wrapInt (active p + 1)), [EvDial (address p)])
    end.

(** [func (p *ConnectionPool) isConnectionValid(conn net.Conn) bool]: every
    error of the read, the deadline timeout included, takes the branch that
    closes the connection. *)
Definition isConnectionValid (p : ConnectionPool) (env : Env) (conn : Conn)
  : bool * ConnectionPool * list Event :=
  match read1 env conn with
  | ReadByte => (true, p, [EvProbe conn])
  | ReadTimeout | ReadEOF =>
      (false, setActive p (wrapInt (active p - 1)), [EvProbe conn; EvClose conn])
  end.

(** [func (p *ConnectionPool) Get() (net.Conn, error)] *)
Definition Get (p : ConnectionPool) (env : Env)
  : (Conn + error) * ConnectionPool * list Event :=
  match connections p with
  | conn :: rest =>
      let '(valid, p1, evs) := isConnectionValid (setConnections p rest) env conn in
      if valid then (inl conn, p1, evs)
      else
        let '(r, p2, evs') := createConnection p1 env in
        (r, p2, evs ++ evs')
  | [] => createConnection p env
  end.

(** [func (p *ConnectionPool) Put(conn net.Conn)]; [None] is a nil [conn]. *)
Definition Put (p : ConnectionPool) (conn : option Conn)
  : ConnectionPool * list Event :=
  match conn with
  | None => (p, [])
  | Some c =>
      if len (connections p) <? maxSize p
      then (setConnections p (connections p ++ [c]), [])
      else (setActive p (wrapInt (active p - 1)), [EvClose c])
  end.

(** [func (p *ConnectionPool) ActiveConnections() int] *)
Definition ActiveConnections (p : ConnectionPool) : Z := active p.

(** [func (p *ConnectionPool) PoolSize() int] *)
Definition PoolSize (p : ConnectionPool) : Z := len (connections p).

(** The dial counter of a run: the number of dials among its events. *)
Definition isDial (e : Event) : bool :=
  match e with EvDial _ => true | _ => false end.

Definition dials (evs : list Event) : Z := len (List.filter isDial evs).

(** Successive [Get] calls, one per environment: the results in call order,
    the pool after the last call and all the events. *)
Fixpoint getAll (p : ConnectionPool) (envs : list Env)
  : list (Conn + error) * ConnectionPool * list Event :=
  match envs with
  | [] => ([], p, [])
  | env :: rest =>
      let '(r, p1, evs) := Get p env in
      let '(rs, p2, evs') := getAll p1 rest in
      (r :: rs, p2, evs ++ evs')
  end.

(** [Get], then [Put] of the connection obtained, then [Get] again, each
    call with its own environment. *)
Definition getPutGet (p : ConnectionPool) (env1 env2 : Env)
  : (Conn + error) * (Conn + error) * ConnectionPool * list Event :=
  let '(r1, p1, evs1) := Get p env1 in
  let '(p2, evs2) :=
    Put p1 (match r1 with inl c => Some c | inr _ => None end) in
  let '(r2, p3, evs3) := Get p2 env2 in
  (r1, r2, p3, evs1 ++ evs2 ++ evs3).

(** A call of the pool by its user. *)
Inductive Call : Type :=
  | CallGet (env : Env)
  | CallPut (conn : option Conn).

Definition call (p : ConnectionPool) (c : Call) : ConnectionPool * list Event :=
  match c with
  | CallGet env => let '(_, p', evs) := Get p env in (p', evs)
  | CallPut conn => Put p conn
  end.

(** A sequence of calls: the pool after the last one and all the events. *)
Fixpoint callAll (p : ConnectionPool) (cs : list Call)
  : ConnectionPool * list Event :=
  match cs with
  | [] => (p, [])
  | c :: rest =>
      let '(p1, evs) := call p c in
      let '(p2, evs') := callAll p1 rest in
      (p2, evs ++ evs')
  end.

(** A user that keeps the connections it obtains and returns only
    connections it holds: [Acquire] calls [Get] and keeps the connection
    returned; [Release i] calls [Put] with the [i]-th connection held (and
    does nothing when it holds fewer). *)
Inductive ClientStep : Type :=
  | Acquire (env : Env)
  | Release (i : nat).

Definition clientStep (p : ConnectionPool) (held : list Conn) (s : ClientStep)
  : ConnectionPool * list Conn * list Event :=
  match s with
  | Acquire env =>
      let '(r, p', evs) := Get p env in
      (p', match r with inl c => held ++ [c] | inr _ => held end, evs)
  | Release i =>
      match held !! i with
      | Some c => let '(p', evs) := Put p (Some c) in (p', delete i held, evs)
      | None => (p, held, [])
      end
  end.

Fixpoint client (p : ConnectionPool) (held : list Conn) (steps : list ClientStep)
  : ConnectionPool * list Conn * list Event :=
  match steps with
  | [] => (p, held, [])
  | s :: rest =>
      let '(p1, held1, evs) := clientStep p held s in
      let '(p2, held2, evs') := client p1 held1 rest in
      (p2, held2, evs ++ evs')
  end.

End pool.

(** ** test (the integration tests) *)

Module integration.
Import backend.

(** The loop of the integration tests that turns the servers of a slice
    into the backends of the balancer:
    [for _, server := range servers { backends = append(backends, balancer.Backend{Address: server.GetAddress(), Healthy: server.Healthy}) }] *)
Fixpoint toBackends (st : Store) (ps : list (option ptr))
    (backends : list balancer.Backend) : outcome (list balancer.Backend) :=
  match ps with
  | [] => Returned backends
  | server :: rest =>
      match load st server with
      | Some s =>
          toBackends st rest
            (backends ++ [ {| balancer.Address := GetAddress s;
                              balancer.Healthy := Healthy s |} ])
      | None => Panicked
      end
  end.

(** The backend that the loop builds from a server. *)
Definition asBackend (s : Server) : balancer.Backend :=
  {| balancer.Address := GetAddress s; balancer.Healthy := Healthy s |}.

End integration.

(** ** scripts/load_test.go *)

Module loadtest.

(** The counters of [type LoadTestResults struct] ([int64]); the duration
    and the floating-point rate of the struct are set once by [main] and
    are left out. *)
Record LoadTestResults : Type := mkResults {
  TotalRequests : Z;
  SuccessRequests : Z;
  FailedRequests : Z
}.

(** [type LatencyTracker struct { mu sync.Mutex; latencies []time.Duration }] *)
Record LatencyTracker : Type := mkTracker { latencies : list Z }.

(** [func (lt *LatencyTracker) AddLatency(latency time.Duration)] *)
Definition AddLatency (lt : LatencyTracker) (latency : Z) : LatencyTracker :=
  {| latencies := latencies lt ++ [latency] |}.

(** The loop of [GetStats], with [min], [max] and [total] as accumulators;
    [total] is an [int64]. *)
Fixpoint statsLoop (ls : list Z) (min max total : Z) : Z * Z * Z :=
  match ls with
  | [] => (min, max, total)
  | latency :: rest =>
      statsLoop rest
        (if latency <? min then latency else min)
        (if latency >? max then latency else max)
        (wrapInt (total + latency))
  end.

(** [func (lt *LatencyTracker) GetStats() (min, max, avg time.Duration)];
    the division of Go integers truncates toward zero. *)
Definition GetStats (lt : LatencyTracker) : Z * Z * Z :=
  match latencies lt with
  | [] => (0, 0, 0)
  | first :: _ =>
      let '(min, max, total) := statsLoop (latencies lt) first first 0 in
      (min, max, Z.quot total (len (latencies lt)))
  end.

(** What [client.Get] gives: an error, or a response with a status code. *)
Inductive Response : Type :=
  | RequestError
  | Status (code : Z).

Definition StatusOK : Z := 200.

(** [atomic.AddInt64(&v, 1)] *)
Definition AddInt64 (v delta : Z) : Z := wrapInt (v + delta).

(** [func performRequest(client, results, tracker)], given the outcome of
    the request and the latency measured: the counters and the tracker
    after the call, and the number of lines logged. *)
Definition performRequest (results : LoadTestResults) (tracker : LatencyTracker)
    (resp : Response) (latency : Z) : LoadTestResults * LatencyTracker * nat :=
  let results1 :=
    {| TotalRequests := AddInt64 (TotalRequests results) 1;
       SuccessRequests := SuccessRequests results;
       FailedRequests := FailedRequests results |} in
  let tracker1 := AddLatency tracker latency in
  match resp with
  | RequestError =>
      ({| TotalRequests := TotalRequests results1;
          SuccessRequests := SuccessRequests results1;
          FailedRequests := AddInt64 (FailedRequests results1) 1 |},
       tracker1, 1%nat)
  | Status code =>
      if code =? StatusOK then
        ({| TotalRequests := TotalRequests results1;
            SuccessRequests := AddInt64 (SuccessRequests results1) 1;
            FailedRequests := FailedRequests results1 |},
         tracker1, 0%nat)
      else
        ({| TotalRequests := TotalRequests results1;
            SuccessRequests := SuccessRequests results1;
            FailedRequests := AddInt64 (FailedRequests results1) 1 |},
         tracker1, 1%nat)
  end.

(** Successive requests, each with its outcome and latency. *)
Fixpoint performAll (results : LoadTestResults) (tracker : LatencyTracker)
    (reqs : list (Response * Z)) : LoadTestResults * LatencyTracker :=
  match reqs with
  | [] => (results, tracker)
  | (resp, latency) :: rest =>
      let '(results1, tracker1, _) := performRequest results tracker resp latency in
      performAll results1 tracker1 rest
  end.

(** The sum of a list of durations. *)
Definition total (ls : list Z) : Z := fold_right Z.add 0 ls.

End loadtest.

(** * Properties *)

(** ** Runtime conventions *)

Lemma len_nonneg {A} (s : list A) : 0 <= len s.
Proof. unfold len. lia. Qed.

Lemma len_zero_iff {A} (s : list A) : len s = 0 <-> s = [].
Proof.
  unfold len. destruct s; simpl; split; intros H; try done; lia.
Qed.

Lemma len_app {A} (s t : list A) : len (s ++ t) = len s + len t.
Proof. unfold len. rewrite length_app. lia. Qed.

Lemma AddUint64_range v d : 0 <= AddUint64 v d < 2 ^ 64.
Proof. unfold AddUint64. apply Z.mod_pos_bound. lia. Qed.

Lemma AddUint64_small v d : 0 <= v + d < 2 ^ 64 -> AddUint64 v d = v + d.
Proof. intros H. unfold AddUint64. now apply Z.mod_small. Qed.

Lemma wrapInt_small z : - 2 ^ 63 <= z < 2 ^ 63 -> wrapInt z = z.
Proof. intros H. unfold wrapInt. rewrite Z.mod_small; lia. Qed.

(** ** Round robin *)

Section RoundRobin.
Import balancer.

Lemma collectHealthy_spec backends acc :
  collectHealthy backends acc = acc ++ healthyOf backends.
Proof.
  revert acc. induction backends as [|b bs IH]; intros acc; simpl.
  - now rewrite app_nil_r.
  - rewrite IH. unfold healthyOf. simpl.
    destruct (Healthy b); [now rewrite <- app_assoc | reflexivity].
Qed.

Lemma healthyOf_all_healthy backends b :
  In b (healthyOf backends) -> In b backends /\ Healthy b = true.
Proof. unfold healthyOf. apply filter_In. Qed.

(** The selection when no candidate is healthy: nil, and the counter is
    left alone. *)
Lemma rr_select_none rr backends :
  healthyOf backends = [] ->
  RoundRobin_SelectBackend rr backends = (Returned None, rr).
Proof.
  intros Hh. unfold RoundRobin_SelectBackend.
  destruct (len backends =? 0); [reflexivity|].
  rewrite collectHealthy_spec, Hh. reflexivity.
Qed.

(** The selection when some candidate is healthy. *)
Lemma rr_select_some rr backends :
  healthyOf backends <> [] ->
  RoundRobin_SelectBackend rr backends =
    (Returned (Some {| base := healthyOf backends;
                       offset := AddUint64 (counter rr) 1
                                 mod len (healthyOf backends) |}),
     {| counter := AddUint64 (counter rr) 1 |}).
Proof.
  intros Hh. unfold RoundRobin_SelectBackend.
  assert (Hn : 0 < len (healthyOf backends)).
  { pose proof (len_nonneg (healthyOf backends)) as H0.
    destruct (Z.eq_dec (len (healthyOf backends)) 0) as [E|E]; [|lia].
    apply len_zero_iff in E. contradiction. }
  destruct (len backends =? 0) eqn:Eb.
  - apply Z.eqb_eq, len_zero_iff in Eb. subst backends. now destruct Hh.
  - rewrite collectHealthy_spec. simpl.
    destruct (len (healthyOf backends) =? 0) eqn:E0.
    { apply Z.eqb_eq in E0. lia. }
    unfold urem. rewrite E0. unfold addressOf.
    pose proof (Z.mod_pos_bound (AddUint64 (counter rr) 1) _ Hn) as [Hlo Hhi].
    apply Z.leb_le in Hlo. apply Z.ltb_lt in Hhi.
    now rewrite Hlo, Hhi.
Qed.

Lemma calls_none (rr : RoundRobinAlgorithm) backends m :
  healthyOf backends = [] ->
  calls rr backends m = (repeat (Returned None) m, rr).
Proof.
  intros Hh. induction m as [|m IH]; [reflexivity|].
  cbn [calls SelectBackend RoundRobin_Algorithm].
  rewrite rr_select_none by assumption. now rewrite IH.
Qed.

(** C3 (round robin never selects an unhealthy backend, and answers nil
    exactly when no candidate is healthy).  For every receiver state and
    every slice of backends: the call returns (it does not panic); a
    backend it returns is an element of the input whose [Healthy] flag is
    set; it returns nil exactly when the healthy subset of the input is
    empty; and on such an input (in particular on the empty slice) every
    call of a sequence of calls returns nil. *)
Theorem rr_select_only_healthy (rr : RoundRobinAlgorithm) (backends : list Backend) :
  fst (RoundRobin_SelectBackend rr backends) <> Panicked
  /\ (forall p, fst (RoundRobin_SelectBackend rr backends) = Returned (Some p) ->
        exists b, deref p = Some b /\ In b backends /\ Healthy b = true)
  /\ (fst (RoundRobin_SelectBackend rr backends) = Returned None
        <-> List.filter Healthy backends = [])
  /\ (List.filter Healthy backends = [] ->
        forall m r, In r (fst (calls rr backends m)) -> r = Returned None).
Proof.
  fold (healthyOf backends).
  destruct (healthyOf backends) as [|h hs] eqn:Hh.
  - rewrite rr_select_none by assumption. simpl.
    repeat split; try discriminate; try reflexivity.
    intros _ m r. rewrite calls_none by assumption. simpl.
    apply repeat_spec.
  - assert (Hne : healthyOf backends <> []) by (rewrite Hh; discriminate).
    rewrite (rr_select_some rr backends Hne). simpl fst.
    set (n := len (healthyOf backends)).
    assert (Hn : 0 < n).
    { unfold n, len. rewrite Hh. simpl length. lia. }
    pose proof (Z.mod_pos_bound (AddUint64 (counter rr) 1) n Hn) as Hidx.
    rewrite <- Hh.
    split; [discriminate|]. split; [|split].
    + intros p [= <-]. unfold deref. simpl.
      destruct (healthyOf backends !! Z.to_nat (AddUint64 (counter rr) 1 mod n))
        as [b|] eqn:Hb.
      * exists b. split; [reflexivity|].
        apply healthyOf_all_healthy. apply list_elem_of_In.
        eapply list_elem_of_lookup_2. exact Hb.
      * apply lookup_ge_None in Hb.
        assert (n = Z.of_nat (length (healthyOf backends))) by reflexivity.
        lia.
    + split; [discriminate|]. intros E. rewrite E in Hne. now destruct Hne.
    + intros E. rewrite E in Hne. now destruct Hne.
Qed.

(** C9 (least connections selects nothing).  For every slice of backends,
    also a non-empty one whose backends are all healthy, the call returns
    nil and leaves the receiver as it was. *)
Theorem lc_select_always_nil (lc : LeastConnectionsAlgorithm) (backends : list Backend) :
  LeastConnections_SelectBackend lc backends = (Returned None, lc)
  /\ forall m r, In r (fst (calls lc backends m)) -> r = Returned None.
Proof.
  split; [reflexivity|].
  intros m. revert lc. induction m as [|m IH]; intros lc r; simpl.
  - intros [].
  - specialize (IH lc). destruct (calls lc backends m) as [rs lc'] eqn:E.
    simpl. intros [<-|Hin]; [reflexivity|]. now apply IH.
Qed.

(** *** Sequences of calls *)

Lemma healthy_len_pos backends :
  healthyOf backends <> [] <-> 0 < len (healthyOf backends).
Proof.
  pose proof (len_nonneg (healthyOf backends)) as H0.
  pose proof (len_zero_iff (healthyOf backends)) as Hz.
  split.
  - intros Hne. destruct (Z.eq_dec (len (healthyOf backends)) 0) as [E|E]; [|lia].
    apply Hz in E. contradiction.
  - intros Hpos E. apply Hz in E. lia.
Qed.

Lemma calls_succ (rr : RoundRobinAlgorithm) backends m :
  calls rr backends (S m) =
    (fst (RoundRobin_SelectBackend rr backends)
       :: fst (calls (snd (RoundRobin_SelectBackend rr backends)) backends m),
     snd (calls (snd (RoundRobin_SelectBackend rr backends)) backends m)).
Proof.
  cbn [calls SelectBackend RoundRobin_Algorithm].
  destruct (RoundRobin_SelectBackend rr backends) as [r rr'].
  cbn [fst snd]. now destruct (calls rr' backends m).
Qed.

(** The counter after [m] calls on a slice with a healthy backend. *)
Lemma calls_counter (rr : RoundRobinAlgorithm) backends m :
  healthyOf backends <> [] ->
  0 <= counter rr < 2 ^ 64 ->
  snd (calls rr backends m) = {| counter := (counter rr + Z.of_nat m) mod 2 ^ 64 |}.
Proof.
  intros Hne. revert rr. induction m as [|m IH]; intros rr Hc.
  - cbn [calls snd]. destruct rr as [c]. cbn [counter] in *.
    rewrite Z.add_0_r, Z.mod_small by lia. reflexivity.
  - rewrite calls_succ. cbn [snd]. rewrite rr_select_some by assumption.
    cbn [snd]. rewrite IH by (cbn [counter]; apply AddUint64_range).
    cbn [counter]. unfold AddUint64. rewrite Zplus_mod_idemp_l.
    f_equal. f_equal. lia.
Qed.

(** The result of call number [k] of a fresh instance, before the counter
    wraps around. *)
Lemma nthCall_fresh backends (k : nat) :
  healthyOf backends <> [] ->
  1 <= Z.of_nat k < 2 ^ 64 ->
  nthCall NewRoundRobinAlgorithm backends k =
    Returned (Some {| base := healthyOf backends;
                      offset := Z.of_nat k mod len (healthyOf backends) |}).
Proof.
  intros Hne Hk. unfold nthCall.
  cbn [SelectBackend RoundRobin_Algorithm].
  rewrite calls_counter by (assumption || (cbn; lia)).
  rewrite rr_select_some by assumption. cbn [fst counter NewRoundRobinAlgorithm].
  unfold AddUint64. rewrite Zplus_mod_idemp_l.
  replace (0 + Z.of_nat (pred k) + 1) with (Z.of_nat k) by lia.
  rewrite (Z.mod_small (Z.of_nat k)) by lia. reflexivity.
Qed.

(** C10, amended (the first call of a fresh round robin returns position
    1, and the calls cycle until the counter wraps).  With
    [n >= 2] healthy backends in the slice, a fresh instance returns the
    healthy backend at position 1 on its first call; call number [k]
    returns position [k mod n] (so the calls cycle 1, 2, ..., n-1, 0, 1,
    ...) for every call before the 64-bit counter wraps; and among the
    first [n] calls, position 0 is returned by call number [n] only. *)
Theorem rr_fresh_starts_at_one (backends : list Backend) :
  2 <= len (healthyOf backends) ->
  fst (RoundRobin_SelectBackend NewRoundRobinAlgorithm backends)
    = Returned (Some {| base := healthyOf backends; offset := 1 |})
  /\ (forall k : nat, 1 <= Z.of_nat k < 2 ^ 64 ->
        nthCall NewRoundRobinAlgorithm backends k
          = Returned (Some {| base := healthyOf backends;
                              offset := Z.of_nat k mod len (healthyOf backends) |}))
  /\ (forall k : nat, 1 <= Z.of_nat k <= len (healthyOf backends) ->
        Z.of_nat k < 2 ^ 64 ->
        (selects 0 (nthCall NewRoundRobinAlgorithm backends k) = true
           <-> Z.of_nat k = len (healthyOf backends))).
Proof.
  intros Hn.
  assert (Hne : healthyOf backends <> []) by (apply healthy_len_pos; lia).
  split; [|split].
  - rewrite rr_select_some by assumption. cbn [fst counter NewRoundRobinAlgorithm].
    rewrite AddUint64_small by lia. rewrite Z.mod_small by lia. reflexivity.
  - intros k Hk. now apply nthCall_fresh.
  - intros k Hk Hk64. rewrite nthCall_fresh by (assumption || lia).
    cbn [selects offset]. rewrite Z.eqb_eq.
    destruct (Z.eq_dec (Z.of_nat k) (len (healthyOf backends))) as [E|E].
    + rewrite E, Z.mod_same by lia. tauto.
    + rewrite Z.mod_small by lia. lia.
Qed.

(** *** Fairness *)

(** Among [x], the integers below [x + 1] congruent to [i] modulo [n] are
    one more than those below [x] exactly when [x] is one of them. *)
Lemma residue_count_step n i x :
  0 < n -> 0 <= i < n -> 0 <= x ->
  (x + 1 + n - 1 - i) / n - (x + n - 1 - i) / n = if x mod n =? i then 1 else 0.
Proof.
  intros Hn Hi Hx.
  pose proof (Z.div_mod x n ltac:(lia)) as Hdm.
  pose proof (Z.mod_pos_bound x n Hn) as Hr.
  set (q := x / n) in *. set (r := x mod n) in *.
  destruct (Z.eqb_spec r i) as [E|E].
  - replace (x + 1 + n - 1 - i) with ((q + 1) * n + 0) by lia.
    replace (x + n - 1 - i) with (q * n + (n - 1)) by lia.
    rewrite !Z.div_add_l by lia.
    rewrite (Z.div_small 0), (Z.div_small (n - 1)) by lia. lia.
  - destruct (Z_lt_le_dec r i) as [Hlt|Hge].
    + replace (x + 1 + n - 1 - i) with (q * n + (r + n - i)) by lia.
      replace (x + n - 1 - i) with (q * n + (r + n - 1 - i)) by lia.
      rewrite !Z.div_add_l by lia.
      rewrite (Z.div_small (r + n - i)), (Z.div_small (r + n - 1 - i)) by lia.
      lia.
    + replace (x + 1 + n - 1 - i) with ((q + 1) * n + (r - i)) by lia.
      replace (x + n - 1 - i) with ((q + 1) * n + (r - 1 - i)) by lia.
      rewrite !Z.div_add_l by lia.
      rewrite (Z.div_small (r - i)), (Z.div_small (r - 1 - i)) by lia.
      lia.
Qed.

(** A window of [m] consecutive integers holds between [floor (m / n)] and
    [ceil (m / n)] multiples of [n]. *)
Lemma div_window n a m :
  0 < n -> 0 <= a -> 0 <= m ->
  m / n <= (a + m) / n - a / n <= (m + n - 1) / n.
Proof.
  intros Hn Ha Hm.
  pose proof (Z.div_mod a n ltac:(lia)) as Ea.
  pose proof (Z.mod_pos_bound a n Hn) as Ra.
  pose proof (Z.div_mod m n ltac:(lia)) as Em.
  pose proof (Z.mod_pos_bound m n Hn) as Rm.
  set (qa := a / n) in *. set (ra := a mod n) in *.
  set (qm := m / n) in *. set (rm := m mod n) in *.
  assert (E1 : (a + m) / n = qa + qm + (ra + rm) / n).
  { replace (a + m) with ((qa + qm) * n + (ra + rm)) by lia.
    now rewrite Z.div_add_l by lia. }
  assert (E2 : (m + n - 1) / n = qm + (rm + n - 1) / n).
  { replace (m + n - 1) with (qm * n + (rm + n - 1)) by lia.
    now rewrite Z.div_add_l by lia. }
  rewrite E1, E2.
  assert (0 <= (ra + rm) / n) by (apply Z.div_pos; lia).
  destruct (Z.eq_dec rm 0) as [R0|R0].
  - rewrite R0, Z.add_0_r, (Z.div_small ra) by lia.
    rewrite (Z.div_small (0 + n - 1)) by lia. lia.
  - assert ((ra + rm) / n <= 1).
    { apply Z.lt_succ_r. apply Z.div_lt_upper_bound; lia. }
    assert ((rm + n - 1) / n = 1).
    { replace (rm + n - 1) with (1 * n + (rm - 1)) by lia.
      rewrite Z.div_add_l, Z.div_small by lia. lia. }
    lia.
Qed.

Lemma timesSelected_cons i r rs :
  timesSelected i (r :: rs) = (if selects i r then 1 else 0) + timesSelected i rs.
Proof.
  unfold timesSelected, len. cbn [List.filter].
  destruct (selects i r); cbn [length]; lia.
Qed.

(** The number of selections of position [i] in [m] calls during which the
    counter does not wrap. *)
Lemma timesSelected_nowrap (rr : RoundRobinAlgorithm) backends (m : nat) i :
  healthyOf backends <> [] ->
  0 <= i < len (healthyOf backends) ->
  0 <= counter rr ->
  counter rr + Z.of_nat m < 2 ^ 64 ->
  timesSelected i (fst (calls rr backends m)) =
    (counter rr + 1 + Z.of_nat m + len (healthyOf backends) - 1 - i)
      / len (healthyOf backends)
    - (counter rr + 1 + len (healthyOf backends) - 1 - i)
      / len (healthyOf backends).
Proof.
  intros Hne Hi. set (n := len (healthyOf backends)) in *.
  assert (Hn : 0 < n) by lia.
  revert rr. induction m as [|m IH]; intros rr Hc Hm.
  - cbn [calls fst]. unfold timesSelected. cbn [List.filter].
    change (Z.of_nat 0) with 0. rewrite Z.add_0_r.
    change (len []) with 0. lia.
  - rewrite calls_succ. cbn [fst]. rewrite timesSelected_cons.
    rewrite rr_select_some by assumption. cbn [fst snd selects offset].
    fold n. rewrite AddUint64_small by lia.
    rewrite IH by (cbn [counter]; lia). cbn [counter].
    pose proof (residue_count_step n i (counter rr + 1) Hn Hi ltac:(lia)) as Hs.
    rewrite <- Hs.
    replace (counter rr + 1 + 1 + Z.of_nat m + n - 1 - i)
      with (counter rr + 1 + Z.of_nat (S m) + n - 1 - i) by lia.
    lia.
Qed.

(** C4, amended (fairness of round robin while the counter does not wrap).
    For a slice with [n >= 1] healthy backends and [m >= n] sequential
    calls during which the 64-bit counter does not wrap around (as is the
    case for the first [2^64 - 1] calls of a fresh instance), every healthy
    position is selected at least [floor (m / n)] and at most
    [ceil (m / n)] times. *)
Theorem rr_fair_until_wraparound (rr : RoundRobinAlgorithm)
    (backends : list Backend) (m : nat) :
  1 <= len (healthyOf backends) ->
  len (healthyOf backends) <= Z.of_nat m ->
  0 <= counter rr ->
  counter rr + Z.of_nat m < 2 ^ 64 ->
  fairCalls rr backends m.
Proof.
  intros Hn Hm Hc Hw i Hi.
  assert (Hne : healthyOf backends <> []) by (apply healthy_len_pos; lia).
  rewrite timesSelected_nowrap by assumption.
  set (n := len (healthyOf backends)) in *.
  pose proof (div_window n (counter rr + n - i) (Z.of_nat m)
                ltac:(lia) ltac:(lia) ltac:(lia)) as Hw'.
  replace (counter rr + 1 + Z.of_nat m + n - 1 - i)
    with (counter rr + n - i + Z.of_nat m) by lia.
  replace (counter rr + 1 + n - 1 - i) with (counter rr + n - i) by lia.
  exact Hw'.
Qed.

Lemma rr_fair_until_wraparound_witness :
  (1 <= len (healthyOf threeHealthy)
   /\ len (healthyOf threeHealthy) <= Z.of_nat 7
   /\ 0 <= counter NewRoundRobinAlgorithm
   /\ counter NewRoundRobinAlgorithm + Z.of_nat 7 < 2 ^ 64)
  /\ fairCalls NewRoundRobinAlgorithm threeHealthy 7.
Proof.
  assert (H1 : 1 <= len (healthyOf threeHealthy)) by (vm_compute; discriminate).
  assert (H2 : len (healthyOf threeHealthy) <= Z.of_nat 7) by (vm_compute; discriminate).
  assert (H3 : 0 <= counter NewRoundRobinAlgorithm) by (vm_compute; discriminate).
  assert (H4 : counter NewRoundRobinAlgorithm + Z.of_nat 7 < 2 ^ 64) by reflexivity.
  split; [tauto|].
  exact (rr_fair_until_wraparound NewRoundRobinAlgorithm threeHealthy 7 H1 H2 H3 H4).
Defined.

(** Every counter value is the state of a fresh instance after that many
    calls. *)
Lemma rr_counter_reached backends c :
  healthyOf backends <> [] ->
  0 <= c < 2 ^ 64 ->
  snd (calls NewRoundRobinAlgorithm backends (Z.to_nat c)) = {| counter := c |}.
Proof.
  intros Hne Hc. rewrite calls_counter by (assumption || (cbn; lia)).
  cbn [counter NewRoundRobinAlgorithm]. rewrite Z2Nat.id by lia.
  rewrite Z.add_0_l, Z.mod_small by lia. reflexivity.
Qed.

(** C4 as stated fails when the counter wraps around during the calls: with
    three healthy backends and the counter at [2^64 - 2], the next three
    calls select the positions 0, 0 and 1, so position 2 is selected less
    than [floor (3 / 3) = 1] times. *)
Lemma rr_unfair_across_wraparound :
  positions (fst (calls {| counter := 2 ^ 64 - 2 |} threeHealthy 3)) = [0; 0; 1]
  /\ 1 <= len (healthyOf threeHealthy) <= Z.of_nat 3
  /\ ~ fairCalls {| counter := 2 ^ 64 - 2 |} threeHealthy 3.
Proof.
  split; [reflexivity|]. split; [split; discriminate|].
  intros Hfair. destruct (Hfair 2) as [Hlo _]; [split; [discriminate|reflexivity]|].
  vm_compute in Hlo. now apply Hlo.
Qed.

(** *** Across the wrap-around *)

Lemma calls_app (rr : RoundRobinAlgorithm) backends (a b : nat) :
  calls rr backends (a + b) =
    (fst (calls rr backends a) ++ fst (calls (snd (calls rr backends a)) backends b),
     snd (calls (snd (calls rr backends a)) backends b)).
Proof.
  revert rr. induction a as [|a IH]; intros rr.
  - cbn [Nat.add calls fst snd app]. now destruct (calls rr backends b).
  - cbn [Nat.add]. rewrite !calls_succ, IH. reflexivity.
Qed.

Lemma timesSelected_app i rs rs' :
  timesSelected i (rs ++ rs') = timesSelected i rs + timesSelected i rs'.
Proof. unfold timesSelected. now rewrite List.filter_app, len_app. Qed.

(** One full period of the counter, from a fresh instance over the three
    healthy test backends: the [2^64] calls select position 0 once more
    than a third of the time, and the counter is back at zero. *)
Lemma rr_full_period (b : nat) :
  Z.of_nat b = 2 ^ 64 ->
  timesSelected 0 (fst (calls NewRoundRobinAlgorithm threeHealthy b))
    = (2 ^ 64 + 2) / 3
  /\ snd (calls NewRoundRobinAlgorithm threeHealthy b) = NewRoundRobinAlgorithm.
Proof.
  intros Hb.
  assert (Hne : healthyOf threeHealthy <> []) by discriminate.
  assert (Hn : len (healthyOf threeHealthy) = 3) by reflexivity.
  destruct b as [|a]; [discriminate|].
  assert (Ha : Z.of_nat a = 2 ^ 64 - 1) by lia.
  replace (S a) with (a + 1)%nat by lia.
  rewrite calls_app. cbn [fst snd].
  assert (Hstate : snd (calls NewRoundRobinAlgorithm threeHealthy a)
                   = {| counter := 2 ^ 64 - 1 |}).
  { rewrite calls_counter by (assumption || (cbn [counter NewRoundRobinAlgorithm]; lia)).
    cbn [counter NewRoundRobinAlgorithm]. rewrite Ha. reflexivity. }
  rewrite Hstate. split.
  - rewrite timesSelected_app.
    rewrite timesSelected_nowrap;
      [ | assumption | rewrite Hn; lia
        | cbn [counter NewRoundRobinAlgorithm]; lia
        | cbn [counter NewRoundRobinAlgorithm]; rewrite Ha; reflexivity ].
    cbn [counter NewRoundRobinAlgorithm]. rewrite Hn, Ha. reflexivity.
  - reflexivity.
Qed.

(** Two periods: position 0 is selected more than [ceil (2^65 / 3)] times. *)
Lemma rr_two_periods (m : nat) :
  Z.of_nat m = 2 ^ 65 ->
  ~ fairCalls NewRoundRobinAlgorithm threeHealthy m.
Proof.
  intros Hm Hfair.
  destruct (Hfair 0) as [_ Hhi]; [split; [discriminate|reflexivity]|].
  assert (Hsplit : exists b, Z.of_nat b = 2 ^ 64 /\ m = (b + b)%nat).
  { exists (Z.to_nat (2 ^ 64)). lia. }
  destruct Hsplit as (b & Hb & ->).
  destruct (rr_full_period b Hb) as [Hcount Hback].
  rewrite calls_app in Hhi. cbn [fst] in Hhi.
  rewrite timesSelected_app, Hback, Hcount, Hm in Hhi.
  change (len (healthyOf threeHealthy)) with 3 in Hhi.
  vm_compute in Hhi. now apply Hhi.
Qed.

(** C4 fails for a fresh instance as well, once the counter has wrapped
    twice: in [2^65] calls over the three healthy test backends, position 0
    is selected more than [ceil (2^65 / 3)] times. *)
Lemma rr_unfair_after_two_periods :
  ~ fairCalls NewRoundRobinAlgorithm threeHealthy (Z.to_nat (2 ^ 65)).
Proof.
  apply rr_two_periods. apply Z2Nat.id. discriminate.
Qed.

Lemma rr_fresh_starts_at_one_witness :
  2 <= len (healthyOf threeHealthy)
  /\ nthCall NewRoundRobinAlgorithm threeHealthy 3
       = Returned (Some {| base := healthyOf threeHealthy; offset := 0 |}).
Proof.
  assert (H : 2 <= len (healthyOf threeHealthy)) by (vm_compute; discriminate).
  split; [exact H|].
  exact (proj1 (proj2 (rr_fresh_starts_at_one threeHealthy H)) 3%nat
           (conj (ltac:(vm_compute; discriminate) : 1 <= Z.of_nat 3)
                 (eq_refl : Z.of_nat 3 < 2 ^ 64))).
Defined.

(** The expectations of [TestRoundRobinAlgorithm_SelectBackend]. *)
Example test_three_healthy :
  positions (fst (calls NewRoundRobinAlgorithm threeHealthy 6)) = [1; 2; 0; 1; 2; 0].
Proof. reflexivity. Qed.

Example test_mixed :
  positions (fst (calls NewRoundRobinAlgorithm mixedHealth 4)) = [1; 0; 1; 0].
Proof. reflexivity. Qed.

Example test_no_backends :
  positions (fst (calls NewRoundRobinAlgorithm [] 3)) = [-1; -1; -1].
Proof. reflexivity. Qed.

Example test_all_unhealthy :
  positions (fst (calls NewRoundRobinAlgorithm allUnhealthy 2)) = [-1; -1].
Proof. reflexivity. Qed.

End RoundRobin.

(** ** The backend registry *)

Section Registry.
Import backend.
Local Open Scope nat_scope.

Variable growCap : nat -> nat.


Lemma elements_length st s :
  backed st s -> length (elements st s) = slen s.
Proof.
  intros (a & Ha & Hlen & _). unfold elements. rewrite Ha. simpl.
  now apply length_take_le.
Qed.

(** [append]: the new slice shows the old elements and the new one; the
    [Server] structs are untouched; a slice header taken earlier still
    shows what it showed. *)
Lemma append_spec st s x :
  backed st s ->
  objects (snd (append growCap st s x)) = objects st
  /\ elements (snd (append growCap st s x)) (fst (append growCap st s x))
       = elements st s ++ [Some x]
  /\ backed (snd (append growCap st s x)) (fst (append growCap st s x))
  /\ (forall t, snapshotOf st s t ->
        elements (snd (append growCap st s x)) t = elements st t
        /\ snapshotOf (snd (append growCap st s x)) (fst (append growCap st s x)) t).
Proof.
  intros Hb. pose proof (elements_length st s Hb) as Hel.
  destruct Hb as (a & Ha & Hlen & Hcap).
  assert (Hidx : sarr s < length (arrays st)) by (eapply lookup_lt_Some; eauto).
  unfold append. destruct (Nat.ltb_spec (slen s) (scap s)) as [Hroom|Hfull];
    cbn [fst snd objects arrays].
  - (* in place *)
    split; [reflexivity|]. split; [|split].
    + unfold elements. cbn [arrays sarr slen].
      rewrite list_lookup_alter_eq, Ha. cbn.
      rewrite (take_S_r _ _ (Some x)) by (apply list_lookup_insert_eq; lia).
      rewrite take_insert_ge by lia. reflexivity.
    + exists (<[slen s := Some x]> a). cbn [arrays sarr slen scap].
      rewrite list_lookup_alter_eq, Ha, length_insert. cbn.
      split; [reflexivity|]. split; lia.
    + intros t [Ht1 Ht2]. split.
      * unfold elements. cbn [arrays].
        destruct (Nat.eq_dec (sarr s) (sarr t)) as [E|E].
        -- rewrite <- E, list_lookup_alter_eq, Ha. cbn.
           rewrite take_insert_ge by (symmetry in E; specialize (Ht2 E); lia).
           reflexivity.
        -- now rewrite list_lookup_alter_ne.
      * split; cbn [arrays sarr slen].
        -- now rewrite length_alter.
        -- intros E. specialize (Ht2 E). lia.
  - (* reallocation *)
    split; [reflexivity|]. split; [|split].
    + unfold elements at 1. cbn [arrays sarr slen].
      rewrite list_lookup_middle by reflexivity. cbn [from_option id].
      rewrite app_assoc. rewrite take_app_length'; [reflexivity|].
      rewrite length_app, Hel. cbn. lia.
    + eexists. cbn [arrays sarr slen scap].
      rewrite list_lookup_middle by reflexivity. split; [reflexivity|].
      rewrite !length_app, Hel, length_replicate. cbn [length]. lia.
    + intros t [Ht1 Ht2]. split.
      * unfold elements. cbn [arrays]. now rewrite lookup_app_l.
      * split; cbn [arrays sarr slen].
        -- rewrite length_app. lia.
        -- lia.
Qed.

Lemma load_extend st st' p :
  (exists l, p = Some l /\ l < length (objects st)) ->
  (exists tl, objects st' = objects st ++ tl) ->
  load st' p = load st p.
Proof.
  intros (l & -> & Hl) (tl & Htl). cbn. rewrite Htl. now apply lookup_app_l.
Qed.

(** [AddServer]: one more struct, shown last by the slice of the manager. *)
Lemma AddServer_spec m st address port :
  backed st (servers m) ->
  objects (snd (AddServer growCap m st address port))
    = objects st ++ [ {| Address := address; Port := port; Healthy := false;
                         LastChecked := 0%Z |} ]
  /\ elements (snd (AddServer growCap m st address port))
              (servers (fst (AddServer growCap m st address port)))
       = elements st (servers m) ++ [Some (length (objects st))]
  /\ backed (snd (AddServer growCap m st address port))
            (servers (fst (AddServer growCap m st address port)))
  /\ (forall t, snapshotOf st (servers m) t ->
        elements (snd (AddServer growCap m st address port)) t = elements st t
        /\ snapshotOf (snd (AddServer growCap m st address port))
                      (servers (fst (AddServer growCap m st address port))) t).
Proof.
  intros Hb. unfold AddServer, new.
  set (st1 := {| objects := objects st ++ [_]; arrays := arrays st |}).
  assert (Hb1 : backed st1 (servers m)) by exact Hb.
  pose proof (append_spec st1 (servers m) (length (objects st)) Hb1)
    as (Hobj & Hel & Hbk & Hfr).
  destruct (append growCap st1 (servers m) (length (objects st))) as [s st2].
  cbn [fst snd servers] in *.
  split; [exact Hobj|]. split; [exact Hel|]. split; [exact Hbk|].
  intros t Ht. exact (Hfr t Ht).
Qed.

Lemma closed_view_extend st st' t :
  closed st t ->
  elements st' t = elements st t ->
  (exists tl, objects st' = objects st ++ tl) ->
  view st' t = view st t /\ closed st' t.
Proof.
  intros Hc He Hext. unfold view, closed in *. rewrite He. split.
  - apply map_ext_in. intros p Hp. apply load_extend; [|assumption].
    rewrite Forall_forall in Hc. apply Hc. now apply list_elem_of_In.
  - eapply Forall_impl; [exact Hc|]. cbn. intros p (l & -> & Hl).
    exists l. split; [reflexivity|]. destruct Hext as (tl & ->).
    rewrite length_app. lia.
Qed.

(** A run of [AddServer] calls: the manager shows one more server per
    call, in call order; a slice header taken before the run shows the same
    pointers and the same servers after it. *)
Lemma addAll_spec entries : forall m st,
  backed st (servers m) ->
  closed st (servers m) ->
  view (snd (addAll growCap m st entries)) (servers (fst (addAll growCap m st entries)))
    = view st (servers m)
      ++ map (fun e => Some {| Address := fst e; Port := snd e;
                               Healthy := false; LastChecked := 0%Z |}) entries
  /\ backed (snd (addAll growCap m st entries)) (servers (fst (addAll growCap m st entries)))
  /\ closed (snd (addAll growCap m st entries)) (servers (fst (addAll growCap m st entries)))
  /\ (forall t, snapshotOf st (servers m) t -> closed st t ->
        elements (snd (addAll growCap m st entries)) t = elements st t
        /\ view (snd (addAll growCap m st entries)) t = view st t).
Proof.
  induction entries as [|[address port] rest IH]; intros m st Hb Hc.
  - cbn. rewrite app_nil_r. repeat split; assumption || reflexivity.
  - unfold addAll in *. cbn [fold_left fst snd].
    pose proof (AddServer_spec m st address port Hb) as (Hobj & Hel & Hbk & Hfr).
    destruct (AddServer growCap m st address port) as [m1 st1].
    cbn [fst snd] in *.
    assert (Hext : exists tl, objects st1 = objects st ++ tl) by eauto.
    assert (Hview1 : view st1 (servers m1)
              = view st (servers m)
                ++ [Some {| Address := address; Port := port; Healthy := false;
                            LastChecked := 0%Z |}]).
    { unfold view. rewrite Hel, map_app. f_equal.
      - apply map_ext_in. intros p Hp. apply load_extend; [|assumption].
        unfold closed in Hc. rewrite Forall_forall in Hc. apply Hc.
        now apply list_elem_of_In.
      - cbn. rewrite Hobj. now rewrite list_lookup_middle. }
    assert (Hc1 : closed st1 (servers m1)).
    { unfold closed. rewrite Hel. apply Forall_app. split.
      - eapply Forall_impl; [exact Hc|]. cbn. intros p (l & -> & Hl).
        exists l. split; [reflexivity|]. rewrite Hobj, length_app. lia.
      - constructor; [|constructor]. eexists. split; [reflexivity|].
        rewrite Hobj, length_app. cbn. lia. }
    specialize (IH m1 st1 Hbk Hc1) as (IHview & IHbk & IHc & IHfr).
    split; [|split; [|split]].
    + rewrite IHview, Hview1, <- app_assoc. reflexivity.
    + exact IHbk.
    + exact IHc.
    + intros t Ht Hct. destruct (Hfr t Ht) as [Het Hsnap].
      destruct (closed_view_extend st st1 t Hct Het Hext) as [Hv1 Hct1].
      destruct (IHfr t Hsnap Hct1) as [Het2 Hv2].
      split; congruence.
Qed.

Lemma NewManager_invariants :
  backed (snd (NewManager emptyStore)) (servers (fst (NewManager emptyStore)))
  /\ closed (snd (NewManager emptyStore)) (servers (fst (NewManager emptyStore)))
  /\ view (snd (NewManager emptyStore)) (servers (fst (NewManager emptyStore))) = [].
Proof.
  cbn. split; [|split].
  - exists []. cbn. split; [reflexivity|]. split; lia.
  - constructor.
  - reflexivity.
Qed.

(** What a registry built from a list of entries holds. *)
Lemma registry_spec entries :
  view (snd (registry growCap entries)) (servers (fst (registry growCap entries)))
    = map (fun e => Some {| Address := fst e; Port := snd e;
                            Healthy := false; LastChecked := 0%Z |}) entries
  /\ backed (snd (registry growCap entries)) (servers (fst (registry growCap entries)))
  /\ closed (snd (registry growCap entries)) (servers (fst (registry growCap entries))).
Proof.
  destruct NewManager_invariants as (Hb & Hc & Hv).
  unfold registry. destruct (NewManager emptyStore) as [m0 st0].
  cbn [fst snd] in *.
  destruct (addAll_spec entries m0 st0 Hb Hc) as (Hview & Hbk & Hcl & _).
  rewrite Hv in Hview. cbn in Hview. auto.
Qed.

(** C7, amended (the registry keeps every entry it is given).
    [AddServer] appends without looking for an existing server of the same
    identity: after [NewManager] and any sequence of [AddServer] calls the
    registry shows exactly the (address, port) pairs of the calls, in call
    order, so it is free of duplicate identities exactly when no pair was
    added twice. *)
Theorem AddServer_keeps_every_entry (entries : list (string * Z)) :
  identities (snd (registry growCap entries))
             (GetAllServers (fst (registry growCap entries)))
    = map Some entries
  /\ (NoDup (identities (snd (registry growCap entries))
                        (GetAllServers (fst (registry growCap entries))))
      <-> NoDup entries).
Proof.
  assert (Hid : identities (snd (registry growCap entries))
                           (GetAllServers (fst (registry growCap entries)))
                = map Some entries).
  { unfold identities, GetAllServers.
    destruct (registry_spec entries) as (-> & _ & _).
    rewrite map_map. apply map_ext. now intros [address port]. }
  split; [exact Hid|]. rewrite Hid, !NoDup_ListNoDup. split.
  - apply NoDup_map_inv.
  - apply Finite.Injective_map_NoDup. intros x y [= ->]. reflexivity.
Qed.



End Registry.

Section RegistryExamples.
Import backend.

(** C7 as stated fails: adding the same address and port twice leaves two
    servers of that identity in the registry. *)
Lemma AddServer_twice_duplicates :
  identities (snd (registry doubling [("localhost"%string, 8081); ("localhost"%string, 8081)]))
             (GetAllServers (fst (registry doubling
                [("localhost"%string, 8081); ("localhost"%string, 8081)])))
    = [Some ("localhost"%string, 8081); Some ("localhost"%string, 8081)]
  /\ ~ NoDup (identities
               (snd (registry doubling [("localhost"%string, 8081); ("localhost"%string, 8081)]))
               (GetAllServers (fst (registry doubling
                  [("localhost"%string, 8081); ("localhost"%string, 8081)])))).
Proof.
  split; [reflexivity|].
  intros H. vm_compute in H. inversion H as [|? ? Hnotin _]. apply Hnotin.
  left.
Qed.


End RegistryExamples.

(** ** The health checker *)

Section HealthChecker.
Import backend health.

(** C5 (the probe does not use the configured timeout).  [checkServer]
    behaves the same whatever the interval and the timeout of the checker:
    the probe always dials with a timeout of five seconds.  With the
    one-second interval and one-second timeout of the integration test, the
    probe of a backend that never answers takes five seconds, longer than
    the interval; a backend that accepts after three seconds, later than
    the configured timeout, is marked healthy; and a cycle over three
    backends that never answer takes fifteen seconds. *)
Theorem checkServer_ignores_configured_timeout :
  (forall c c' net now st server,
      checkServer c net now st server = checkServer c' net now st server)
  /\ (let c := NewChecker (1 * Second) (1 * Second) in
      let st := snd (registry doubling [("localhost"%string, 8081)]) in
      (exists st' logs,
          checkServer c (fun _ => Silent) 0 st (Some 0%nat)
            = Returned (st', logs, 5 * Second))
      /\ interval c < 5 * Second
      /\ (exists st' logs,
            checkServer c (fun _ => Accepts (3 * Second)) 0 st (Some 0%nat)
              = Returned (st', logs, 3 * Second)
            /\ timeout c < 3 * Second
            /\ option_map Healthy (load st' (Some 0%nat)) = Some true))
  /\ (let c := NewChecker (1 * Second) (1 * Second) in
      let reg := registry doubling
                   [("localhost"%string, 8081); ("localhost"%string, 8082);
                    ("localhost"%string, 8083)] in
      exists st' logs,
        checkAll c (fst reg) (fun _ => Silent) 0 (snd reg)
          = Returned (st', logs, 15 * Second)
        /\ interval c < 15 * Second).
Proof.
  split; [reflexivity|]. split.
  - cbv zeta. split; [|split].
    + do 2 eexists. vm_compute. reflexivity.
    + reflexivity.
    + do 2 eexists. split; [vm_compute; reflexivity|]. split; reflexivity.
  - cbv zeta. do 2 eexists. split; [vm_compute; reflexivity|]. reflexivity.
Qed.

End HealthChecker.

(** ** The dispatcher *)

Section Dispatcher.
Import balancer.

(** A round-robin selection among healthy backends moves the counter, so a
    balancer whose algorithm state did not change made no selection. *)
Lemma rr_select_moves_counter (rr : RoundRobinAlgorithm) backends :
  healthyOf backends <> [] ->
  0 <= counter rr < 2 ^ 64 ->
  snd (RoundRobin_SelectBackend rr backends) <> rr.
Proof.
  intros Hne Hc. rewrite rr_select_some by assumption. cbn [snd].
  destruct rr as [c]. cbn [counter] in *. intros [= E].
  unfold AddUint64 in E.
  destruct (Z.eq_dec c (2 ^ 64 - 1)) as [->|Hne'].
  - vm_compute in E. discriminate.
  - rewrite Z.mod_small in E by lia. lia.
Qed.

(** C1 (the dispatcher forwards nothing).  For every balancer and every
    accepted connection, [handleConnection] closes the client connection
    and does nothing else: the algorithm state is unchanged (no backend is
    selected), no backend is dialled and no byte is written; the same holds
    for any run of the accept loop.  For the round-robin balancer over the
    three healthy test backends, a selection would have moved the counter,
    and the connection's handler leaves it at zero. *)
Theorem handleConnection_only_closes :
  (forall (A : Type) (alg : Algorithm A) (lb : LoadBalancer A) (conn : Conn),
      handleConnection lb conn = (lb, [EvClose conn]))
  /\ (forall (A : Type) (alg : Algorithm A) (lb : LoadBalancer A) accepts,
        fst (acceptLoop lb accepts) = lb
        /\ nothingForwarded (snd (acceptLoop lb accepts)) = true)
  /\ (let lb := NewLoadBalancer ":8080" threeHealthy NewRoundRobinAlgorithm in
      snd (SelectBackend (algorithm lb) (backends lb)) <> algorithm lb
      /\ algorithm (fst (handleConnection lb 7%nat)) = algorithm lb
      /\ snd (handleConnection lb 7%nat) = [EvClose 7%nat]).
Proof.
  split; [reflexivity|]. split.
  - intros A alg lb accepts. induction accepts as [|[conn|] rest IH].
    + split; reflexivity.
    + cbn [acceptLoop handleConnection].
      destruct (acceptLoop lb rest) as [lb' evs]. cbn [fst snd] in *.
      destruct IH as [-> IH]. split; [reflexivity|]. exact IH.
    + exact IH.
  - cbv zeta. split; [|split; reflexivity].
    apply rr_select_moves_counter; [discriminate|]. cbn. lia.
Qed.

End Dispatcher.

(** ** The connection pool *)

Section ConnectionPool.
Import pool.

(** [createConnection] reports exhaustion exactly when the pool is full. *)
Lemma createConnection_exhausted p env :
  fst (fst (createConnection p env)) = inr ErrPoolExhausted
  <-> maxSize p <= active p.
Proof.
  unfold createConnection. destruct (Z.geb_spec (active p) (maxSize p)) as [H|H].
  - cbn. split; [lia | reflexivity].
  - destruct (dial env); cbn; (split; [discriminate | lia]).
Qed.

(** C2 (an idle connection is not reused).  On a new pool of capacity at
    least one, with a reachable backend (both dials succeed), [Get], then
    [Put] of the connection obtained, then [Get]: when nothing is pending
    on the released connection, so that the one-byte read of the liveness
    probe runs into its deadline, the second [Get] closes the released
    connection and dials again.  Two dials occur, and the connection
    returned is the new one. *)
Theorem Get_after_Put_dials_again (address : string) (maxSize : Z)
    (p : ConnectionPool) (env1 env2 : Env) (c1 c2 : Conn) :
  1 <= maxSize < 2 ^ 63 ->
  NewConnectionPool address maxSize = Returned p ->
  dial env1 = Some c1 ->
  dial env2 = Some c2 ->
  read1 env2 c1 = ReadTimeout ->
  exists p',
    getPutGet p env1 env2 =
      (inl c1, inl c2, p',
       [EvDial address; EvProbe c1; EvClose c1; EvDial address])
    /\ dials [EvDial address; EvProbe c1; EvClose c1; EvDial address] = 2
    /\ active p' = 1.
Proof.
  intros Hmax Hnew Hd1 Hd2 Hread. unfold NewConnectionPool in Hnew.
  destruct (Z.ltb_spec maxSize 0) as [?|_]; [lia|].
  injection Hnew as <-.
  unfold getPutGet, Get, createConnection, Put, isConnectionValid,
    setActive, setConnections.
  cbn [connections active pool.maxSize pool.address].
  destruct (Z.geb_spec 0 maxSize) as [?|_]; [lia|].
  rewrite Hd1. cbn [connections active pool.maxSize pool.address].
  change (len []) with 0.
  destruct (Z.ltb_spec 0 maxSize) as [_|?]; [|lia].
  cbn [connections active pool.maxSize pool.address app].
  rewrite Hread. cbn [connections active pool.maxSize pool.address].
  change (wrapInt (0 + 1)) with 1. change (wrapInt (1 - 1)) with 0.
  destruct (Z.geb_spec 0 maxSize) as [?|_]; [lia|].
  rewrite Hd2. cbn [active app].
  eexists. split; [reflexivity|]. split; reflexivity.
Qed.

Lemma Get_after_Put_dials_again_witness :
  exists p',
    getPutGet {| address := "localhost:8081"; maxSize := 2;
                 connections := []; active := 0 |}
              {| read1 := fun _ => ReadTimeout; dial := Some 0%nat |}
              {| read1 := fun _ => ReadTimeout; dial := Some 1%nat |}
    = (inl 0%nat, inl 1%nat, p',
       [EvDial "localhost:8081"; EvProbe 0%nat; EvClose 0%nat;
        EvDial "localhost:8081"])
    /\ dials [EvDial "localhost:8081"; EvProbe 0%nat; EvClose 0%nat;
              EvDial "localhost:8081"] = 2
    /\ active p' = 1.
Proof.
  exact (Get_after_Put_dials_again "localhost:8081" 2
           {| address := "localhost:8081"; maxSize := 2;
              connections := []; active := 0 |}
           {| read1 := fun _ => ReadTimeout; dial := Some 0%nat |}
           {| read1 := fun _ => ReadTimeout; dial := Some 1%nat |}
           0%nat 1%nat
           (conj (ltac:(vm_compute; discriminate) : 1 <= 2)
                 (eq_refl : 2 < 2 ^ 63))
           eq_refl eq_refl eq_refl eq_refl).
Defined.

(** When a byte is pending on the released connection, the probe reads it
    and the connection is handed out again, without a second dial. *)
Lemma Get_after_Put_reuses_when_readable address maxSize p env1 env2 c1 :
  1 <= maxSize < 2 ^ 63 ->
  NewConnectionPool address maxSize = Returned p ->
  dial env1 = Some c1 ->
  read1 env2 c1 = ReadByte ->
  exists p',
    getPutGet p env1 env2 = (inl c1, inl c1, p', [EvDial address; EvProbe c1]).
Proof.
  intros Hmax Hnew Hd1 Hread. unfold NewConnectionPool in Hnew.
  destruct (Z.ltb_spec maxSize 0) as [?|_]; [lia|].
  injection Hnew as <-.
  unfold getPutGet, Get, createConnection, Put, isConnectionValid,
    setActive, setConnections.
  cbn [connections active pool.maxSize pool.address].
  destruct (Z.geb_spec 0 maxSize) as [?|_]; [lia|].
  rewrite Hd1. cbn [connections active pool.maxSize pool.address].
  change (len []) with 0.
  destruct (Z.ltb_spec 0 maxSize) as [_|?]; [|lia].
  cbn [connections active pool.maxSize pool.address app].
  rewrite Hread. eexists. reflexivity.
Qed.

(** The invariant [active <= maxSize] is kept by [Get] and by [Put]. *)
Lemma Get_keeps_bound p env :
  - 2 ^ 63 < active p <= maxSize p ->
  maxSize p < 2 ^ 63 ->
  active (snd (fst (Get p env))) <= maxSize (snd (fst (Get p env)))
  /\ maxSize (snd (fst (Get p env))) = maxSize p.
Proof.
  intros Ha Hm.
  assert (Hcreate : forall q,
            - 2 ^ 63 <= active q <= maxSize q -> maxSize q = maxSize p ->
            active (snd (fst (createConnection q env)))
              <= maxSize (snd (fst (createConnection q env)))
            /\ maxSize (snd (fst (createConnection q env))) = maxSize p).
  { intros q Hq Hmq. unfold createConnection.
    destruct (Z.geb_spec (active q) (maxSize q)) as [?|?]; cbn [fst snd]; [lia|].
    destruct (dial env); cbn [fst snd setActive active maxSize]; [|lia].
    rewrite wrapInt_small by lia. lia. }
  unfold Get. destruct (connections p) as [|conn rest].
  - apply Hcreate; lia.
  - unfold isConnectionValid.
    destruct (read1 env conn); cbn [fst snd setConnections active maxSize];
      try lia;
      (specialize (Hcreate (setActive (setConnections p rest)
                              (wrapInt (active (setConnections p rest) - 1))));
       cbn [setActive setConnections active maxSize] in *;
       rewrite wrapInt_small in * by lia;
       destruct (createConnection _ env) as [[r q'] evs];
       cbn [fst snd] in *; apply Hcreate; lia).
Qed.

Lemma Put_keeps_bound p conn :
  - 2 ^ 63 < active p <= maxSize p ->
  maxSize p < 2 ^ 63 ->
  active (fst (Put p conn)) <= maxSize (fst (Put p conn))
  /\ maxSize (fst (Put p conn)) = maxSize p.
Proof.
  intros Ha Hm. unfold Put. destruct conn as [c|]; cbn [fst]; [|lia].
  destruct (len (connections p) <? maxSize p);
    cbn [fst setActive setConnections active maxSize]; [lia|].
  rewrite wrapInt_small by lia. lia.
Qed.

(** [Get] on a pool whose idle queue is empty and that has room: the dial
    decides. *)
Lemma Get_empty_room p env c :
  connections p = [] ->
  active p < maxSize p ->
  dial env = Some c ->
  Get p env = (inl c, setActive p (wrapInt (active p + 1)), [EvDial (address p)]).
Proof.
  intros Hq Hroom Hd. unfold Get, createConnection. rewrite Hq.
  destruct (Z.geb_spec (active p) (maxSize p)) as [?|_]; [lia|].
  now rewrite Hd.
Qed.

(** Acquiring as many connections as the pool allows, from an empty idle
    queue and with every dial succeeding: every call returns a connection
    and all of them are outstanding at the end. *)
Lemma getAll_fills envs : forall p,
  connections p = [] ->
  0 <= active p ->
  active p + len envs <= maxSize p ->
  maxSize p < 2 ^ 63 ->
  Forall (fun env => dial env <> None) envs ->
  Forall (fun r => exists c, r = inl c) (fst (fst (getAll p envs)))
  /\ snd (fst (getAll p envs)) = setActive p (active p + len envs).
Proof.
  induction envs as [|env rest IH]; intros p Hq Ha Hroom Hmax Hdial.
  - cbn [getAll fst snd]. split; [constructor|].
    change (len []) with 0. rewrite Z.add_0_r. now destruct p.
  - inversion Hdial as [|? ? Hd Hrest]; subst.
    destruct (dial env) as [c|] eqn:Ed; [|contradiction].
    assert (Hlen : len (env :: rest) = 1 + len rest) by (unfold len; cbn [length]; lia).
    pose proof (len_nonneg rest) as Hnn.
    cbn [getAll]. rewrite (Get_empty_room p env c) by (assumption || lia).
    rewrite wrapInt_small by lia.
    specialize (IH (setActive p (active p + 1))).
    cbn [setActive connections active maxSize] in IH.
    destruct IH as [IHr IHp]; [assumption | lia | lia | assumption | assumption |].
    destruct (getAll (setActive p (active p + 1)) rest) as [[rs p'] evs].
    cbn [fst snd] in *. split.
    + constructor; [eauto | exact IHr].
    + rewrite IHp. unfold setActive. cbn. f_equal. lia.
Qed.

(** C8 (the pool reports exhaustion exactly when it is full and has no idle
    connection).  In a pool state that meets the invariant
    [active <= maxSize] (with [active] not at the bottom of the [int]
    range), [Get] fails with [ErrPoolExhausted] if and only if the active
    count has reached [maxSize] and the idle queue is empty.  In particular, after [K] successful [Get] calls on a new pool
    of size [K] (all [K] connections outstanding), a further [Get] returns
    [ErrPoolExhausted] without dialling; and after any connection is
    released with [Put], the next [Get] is not rejected as exhausted: it
    returns the released connection when the probe finds it readable, and
    the newly dialled one when the dial succeeds. *)
Theorem Get_exhausted_iff_full (p : ConnectionPool) (env : Env)
    (address : string) (K : Z) (envs : list Env) (p0 : ConnectionPool) :
  - 2 ^ 63 < active p <= maxSize p ->
  maxSize p < 2 ^ 63 ->
  NewConnectionPool address K = Returned p0 ->
  K < 2 ^ 63 ->
  len envs = K ->
  Forall (fun e => dial e <> None) envs ->
  (fst (fst (Get p env)) = inr ErrPoolExhausted
     <-> maxSize p <= active p /\ connections p = [])
  /\ Forall (fun r => exists c, r = inl c) (fst (fst (getAll p0 envs)))
  /\ (let pK := snd (fst (getAll p0 envs)) in
      active pK = K /\ connections pK = []
      /\ (forall e, Get pK e = (inr ErrPoolExhausted, pK, []))
      /\ (forall c e,
            1 <= K ->
            let r := fst (fst (Get (fst (Put pK (Some c))) e)) in
            r <> inr ErrPoolExhausted
            /\ (read1 e c = ReadByte -> r = inl c)
            /\ (forall c', read1 e c <> ReadByte -> dial e = Some c' -> r = inl c'))).
Proof.
  intros Hinv Hmax Hnew HK Hlen Hdial. split; [|split].
  - unfold Get. destruct (connections p) as [|conn rest] eqn:Hq.
    + rewrite createConnection_exhausted. tauto.
    + unfold isConnectionValid.
      assert (Hcreate : forall q,
                active q = active p - 1 -> maxSize q = maxSize p ->
                fst (fst (createConnection q env)) <> inr ErrPoolExhausted).
      { intros q Ha Hm. rewrite createConnection_exhausted. lia. }
      split; [|intros [_ [=]]].
      destruct (read1 env conn); [discriminate| |];
        (specialize (Hcreate (setActive (setConnections p rest)
                                (wrapInt (active (setConnections p rest) - 1))));
         cbn [setActive setConnections active maxSize] in Hcreate;
         rewrite wrapInt_small in Hcreate by lia;
         specialize (Hcreate eq_refl eq_refl);
         cbn [setActive setConnections active maxSize];
         rewrite wrapInt_small by lia;
         destruct (createConnection _ env) as [[r q'] evs];
         cbn [fst] in *; intros E; contradiction).
  - unfold NewConnectionPool in Hnew.
    destruct (Z.ltb_spec K 0) as [?|HK0]; [discriminate|].
    injection Hnew as <-.
    apply getAll_fills; cbn [connections active maxSize]; auto; lia.
  - unfold NewConnectionPool in Hnew.
    destruct (Z.ltb_spec K 0) as [?|HK0]; [discriminate|].
    injection Hnew as <-.
    destruct (getAll_fills envs
                {| pool.address := address; maxSize := K; connections := [];
                   active := 0 |}) as [_ HpK];
      cbn [connections active maxSize]; auto; try lia.
    cbv zeta. rewrite HpK. unfold setActive.
    cbn [connections active maxSize pool.address].
    rewrite Hlen, Z.add_0_l.
    split; [reflexivity|]. split; [reflexivity|]. split.
    + intros e. unfold Get, createConnection. cbn [connections active maxSize].
      destruct (Z.geb_spec K K) as [_|?]; [reflexivity|lia].
    + intros c e HK1. unfold Put. cbn [connections active maxSize].
      change (len []) with 0.
      destruct (Z.ltb_spec 0 K) as [_|?]; [|lia].
      unfold Get, isConnectionValid, setConnections, setActive.
      cbn [connections active maxSize pool.address app fst].
      rewrite wrapInt_small by lia.
      destruct (read1 e c) eqn:Hread; cbn [fst].
      * split; [discriminate|]. split; [reflexivity|]. intros c' Hc. now destruct Hc.
      * unfold createConnection. cbn [connections active maxSize pool.address].
        destruct (Z.geb_spec (K - 1) K) as [?|_]; [lia|].
        destruct (dial e) as [c''|]; cbn [fst].
        -- split; [discriminate|]. split; [discriminate|]. now intros c' _ [= ->].
        -- split; [discriminate|]. split; [discriminate|]. intros c' _ [=].
      * unfold createConnection. cbn [connections active maxSize pool.address].
        destruct (Z.geb_spec (K - 1) K) as [?|_]; [lia|].
        destruct (dial e) as [c''|]; cbn [fst].
        -- split; [discriminate|]. split; [discriminate|]. now intros c' _ [= ->].
        -- split; [discriminate|]. split; [discriminate|]. intros c' _ [=].
Qed.

Lemma Get_exhausted_iff_full_witness :
  let full := {| pool.address := "localhost:8081"; maxSize := 1;
                 connections := []; active := 1 |} in
  let fresh := {| pool.address := "localhost:8081"; maxSize := 2;
                  connections := []; active := 0 |} in
  let env0 := {| read1 := fun _ => ReadTimeout; dial := Some 0%nat |} in
  let env1 := {| read1 := fun _ => ReadTimeout; dial := Some 1%nat |} in
  (fst (fst (Get full env0)) = inr ErrPoolExhausted
     <-> maxSize full <= active full /\ connections full = [])
  /\ Forall (fun r => exists c, r = inl c) (fst (fst (getAll fresh [env0; env1]))).
Proof.
  intros full fresh env0 env1.
  assert (H1 : - 2 ^ 63 < active full <= maxSize full)
    by (split; [reflexivity | discriminate]).
  assert (H2 : maxSize full < 2 ^ 63) by reflexivity.
  assert (H3 : NewConnectionPool "localhost:8081" 2 = Returned fresh) by reflexivity.
  assert (H4 : 2 < 2 ^ 63) by reflexivity.
  assert (H5 : len [env0; env1] = 2) by reflexivity.
  assert (H6 : Forall (fun e => dial e <> None) [env0; env1])
    by (repeat constructor; discriminate).
  pose proof (Get_exhausted_iff_full full env0 "localhost:8081" 2 [env0; env1]
                fresh H1 H2 H3 H4 H5 H6) as (Hiff & Hall & _).
  exact (conj Hiff Hall).
Defined.

(** The scenario of the pool test: with [maxSize = 2] and both connections
    outstanding a third [Get] is rejected; after one [Put] the next [Get]
    returns a connection. *)
Example pool_of_two :
  let fresh := {| pool.address := "localhost:8081"; maxSize := 2;
                  connections := []; active := 0 |} in
  let env c := {| read1 := fun _ => ReadTimeout; dial := Some c |} in
  let '(rs, p2, _) := getAll fresh [env 0%nat; env 1%nat] in
  rs = [inl 0%nat; inl 1%nat]
  /\ fst (fst (Get p2 (env 2%nat))) = inr ErrPoolExhausted
  /\ fst (fst (Get (fst (Put p2 (Some 0%nat))) (env 2%nat))) = inl 2%nat.
Proof. vm_compute. repeat split. Qed.

End ConnectionPool.

(** * Further properties *)

(** ** Round robin, continued *)

Section RoundRobinMore.
Import balancer.

(** X1 (unhealthy backends are transparent).  The selection depends on the
    healthy backends of the slice only: two slices with the same healthy
    backends in the same order, whatever unhealthy backends stand between
    them, give the same result and the same counter, call after call. *)
Theorem rr_select_ignores_unhealthy (rr : RoundRobinAlgorithm)
    (backends backends' : list Backend) :
  healthyOf backends = healthyOf backends' ->
  RoundRobin_SelectBackend rr backends = RoundRobin_SelectBackend rr backends'
  /\ forall m, calls rr backends m = calls rr backends' m.
Proof.
  intros Hsame.
  assert (Hone : forall r : RoundRobinAlgorithm,
            RoundRobin_SelectBackend r backends = RoundRobin_SelectBackend r backends').
  { intros r. destruct (healthyOf backends) as [|h hs] eqn:Hh.
    - rewrite (rr_select_none r backends Hh).
      now rewrite (rr_select_none r backends') by (symmetry; exact Hsame).
    - assert (H1 : healthyOf backends <> []) by (rewrite Hh; discriminate).
      assert (H2 : healthyOf backends' <> []) by (rewrite <- Hsame; discriminate).
      rewrite (rr_select_some r backends H1), (rr_select_some r backends' H2).
      now rewrite Hh, Hsame. }
  split; [apply Hone|].
  intros m. revert rr. induction m as [|m IH]; intros rr; [reflexivity|].
  rewrite !calls_succ, Hone, !IH. reflexivity.
Qed.

Lemma rr_select_ignores_unhealthy_witness :
  healthyOf mixedHealth
    = healthyOf [ {| Address := "server1:8081"; Healthy := true |};
                  {| Address := "server3:8083"; Healthy := true |} ]
  /\ calls NewRoundRobinAlgorithm mixedHealth 4
     = calls NewRoundRobinAlgorithm
         [ {| Address := "server1:8081"; Healthy := true |};
           {| Address := "server3:8083"; Healthy := true |} ] 4.
Proof.
  split; [reflexivity|].
  exact (proj2 (rr_select_ignores_unhealthy NewRoundRobinAlgorithm mixedHealth
                  [ {| Address := "server1:8081"; Healthy := true |};
                    {| Address := "server3:8083"; Healthy := true |} ]
                  eq_refl) 4%nat).
Defined.

(** X2 (a call that finds no healthy backend does not take a turn).  A
    call that returns nil leaves the counter as it was; a call that returns
    a backend has advanced the counter by one, modulo [2^64], and returns
    the position given by the new counter value. *)
Theorem rr_counter_moves_only_on_selection (rr : RoundRobinAlgorithm)
    (backends : list Backend) :
  (fst (RoundRobin_SelectBackend rr backends) = Returned None ->
     snd (RoundRobin_SelectBackend rr backends) = rr)
  /\ (forall p,
        fst (RoundRobin_SelectBackend rr backends) = Returned (Some p) ->
        counter (snd (RoundRobin_SelectBackend rr backends))
          = (counter rr + 1) mod 2 ^ 64
        /\ offset p = counter (snd (RoundRobin_SelectBackend rr backends))
                      mod len (healthyOf backends)
        /\ base p = healthyOf backends).
Proof.
  destruct (healthyOf backends) as [|h hs] eqn:Hh.
  - rewrite rr_select_none by assumption. cbn [fst snd].
    split; [reflexivity | discriminate].
  - assert (Hne : healthyOf backends <> []) by (rewrite Hh; discriminate).
    rewrite rr_select_some by assumption. cbn [fst snd counter].
    split; [discriminate|]. intros p [= <-]. cbn [offset base].
    rewrite Hh. auto.
Qed.

(** The count of [timesSelected_nowrap] holds across the wrap-around when
    the number of healthy backends divides [2^64]: reducing the counter
    modulo [2^64] does not change its residue. *)
Lemma timesSelected_divides (backends : list Backend) (m : nat) i :
  healthyOf backends <> [] ->
  (len (healthyOf backends) | 2 ^ 64) ->
  0 <= i < len (healthyOf backends) ->
  forall (rr : RoundRobinAlgorithm) c,
    0 <= c ->
    counter rr mod len (healthyOf backends) = c mod len (healthyOf backends) ->
    timesSelected i (fst (calls rr backends m)) =
      (c + 1 + Z.of_nat m + len (healthyOf backends) - 1 - i)
        / len (healthyOf backends)
      - (c + 1 + len (healthyOf backends) - 1 - i)
        / len (healthyOf backends).
Proof.
  intros Hne Hdiv Hi. set (n := len (healthyOf backends)) in *.
  assert (Hn : 0 < n) by lia.
  assert (Hstep : forall (rr : RoundRobinAlgorithm) c,
            counter rr mod n = c mod n ->
            AddUint64 (counter rr) 1 mod n = (c + 1) mod n).
  { intros rr c Hc. unfold AddUint64.
    rewrite Z.mod_mod_divide by assumption.
    rewrite Zplus_mod, Hc, <- Zplus_mod. reflexivity. }
  induction m as [|m IH]; intros rr c Hc Hcong.
  - cbn [calls fst]. unfold timesSelected. cbn [List.filter].
    change (Z.of_nat 0) with 0. rewrite Z.add_0_r.
    change (len []) with 0. lia.
  - rewrite calls_succ. cbn [fst]. rewrite timesSelected_cons.
    rewrite rr_select_some by assumption. cbn [fst snd selects offset].
    fold n. rewrite (Hstep rr c Hcong).
    rewrite (IH {| counter := AddUint64 (counter rr) 1 |} (c + 1))
      by (lia || (cbn [counter]; now apply Hstep)).
    pose proof (residue_count_step n i (c + 1) Hn Hi ltac:(lia)) as Hs.
    rewrite <- Hs.
    replace (c + 1 + 1 + Z.of_nat m + n - 1 - i)
      with (c + 1 + Z.of_nat (S m) + n - 1 - i) by lia.
    lia.
Qed.

(** X3 (fairness survives the wrap-around when the count divides 2^64).
    When the number [n >= 1] of healthy backends divides [2^64] (1, 2, 4,
    8, ...), any [m] sequential calls from any counter value select every
    healthy position between [floor (m / n)] and [ceil (m / n)] times: the
    wrap of the counter does not break the rotation. *)
Theorem rr_fair_when_count_divides (rr : RoundRobinAlgorithm)
    (backends : list Backend) (m : nat) :
  1 <= len (healthyOf backends) ->
  (len (healthyOf backends) | 2 ^ 64) ->
  fairCalls rr backends m.
Proof.
  intros Hn Hdiv i Hi.
  assert (Hne : healthyOf backends <> []) by (apply healthy_len_pos; lia).
  set (n := len (healthyOf backends)) in *.
  pose proof (Z.mod_pos_bound (counter rr) n ltac:(lia)) as Hc.
  rewrite (timesSelected_divides backends m i Hne Hdiv Hi rr (counter rr mod n))
    by (lia || (now rewrite Z.mod_mod by lia)).
  fold n.
  pose proof (div_window n (counter rr mod n + n - i) (Z.of_nat m)
                ltac:(lia) ltac:(lia) ltac:(lia)) as Hw.
  replace (counter rr mod n + 1 + Z.of_nat m + n - 1 - i)
    with (counter rr mod n + n - i + Z.of_nat m) by lia.
  replace (counter rr mod n + 1 + n - 1 - i) with (counter rr mod n + n - i) by lia.
  exact Hw.
Qed.

Lemma rr_fair_when_count_divides_witness :
  (1 <= len (healthyOf mixedHealth) /\ (len (healthyOf mixedHealth) | 2 ^ 64))
  /\ fairCalls {| counter := 2 ^ 64 - 2 |} mixedHealth 5.
Proof.
  assert (H1 : 1 <= len (healthyOf mixedHealth)) by (vm_compute; discriminate).
  assert (H2 : (len (healthyOf mixedHealth) | 2 ^ 64))
    by (exists (2 ^ 63); reflexivity).
  split; [split; assumption|].
  exact (rr_fair_when_count_divides {| counter := 2 ^ 64 - 2 |} mixedHealth 5 H1 H2).
Defined.

(** X4 (every accepted connection is closed once).  [Start] returns at
    once, without any event, when the listener cannot be opened.  Otherwise
    the loop starts one handler per accepted connection and none for an
    accept error, which does not end the loop; in whatever order the
    scheduler runs the handlers, each of them closes its connection, so the
    events are the closes of the accepted connections, one per accepted
    connection, in the order of the schedule. *)
Theorem Start_closes_every_accepted_connection
    (A : Type) (alg : Algorithm A) (lb : LoadBalancer A)
    (accepts : list (option Conn)) (order : list Conn) :
  Permutation order (spawned accepts) ->
  Start lb None order = None
  /\ Start lb (Some accepts) order = Some (lb, map EvClose order)
  /\ Permutation (map EvClose order) (map EvClose (omap id accepts)).
Proof.
  intros Hperm. split; [reflexivity|]. split.
  - unfold Start. f_equal. clear Hperm.
    induction order as [|conn rest IH]; [reflexivity|].
    cbn [runHandlers handleConnection]. rewrite IH. reflexivity.
  - apply Permutation_map.
    replace (omap id accepts) with (spawned accepts); [exact Hperm|].
    clear. induction accepts as [|[conn|] rest IH]; cbn; congruence.
Qed.

Lemma Start_closes_every_accepted_connection_witness :
  Permutation [2%nat; 1%nat] (spawned [Some 1%nat; None; Some 2%nat])
  /\ Start (NewLoadBalancer ":8080" threeHealthy NewRoundRobinAlgorithm)
           (Some [Some 1%nat; None; Some 2%nat]) [2%nat; 1%nat]
     = Some (NewLoadBalancer ":8080" threeHealthy NewRoundRobinAlgorithm,
             [EvClose 2%nat; EvClose 1%nat]).
Proof.
  assert (H : Permutation [2%nat; 1%nat] (spawned [Some 1%nat; None; Some 2%nat]))
    by apply perm_swap.
  split; [exact H|].
  exact (proj1 (proj2 (Start_closes_every_accepted_connection _ _
                         (NewLoadBalancer ":8080" threeHealthy NewRoundRobinAlgorithm)
                         [Some 1%nat; None; Some 2%nat] [2%nat; 1%nat] H))).
Defined.

End RoundRobinMore.

(** ** The backend registry, continued *)

Section RegistryMore.
Import backend.
Local Open Scope nat_scope.

Variable growCap : nat -> nat.

Lemma append_sarr st s x :
  backed st s -> sarr s <= sarr (fst (append growCap st s x)).
Proof.
  intros (a & Ha & _). apply lookup_lt_Some in Ha. unfold append.
  destruct (slen s <? scap s); cbn [fst sarr]; lia.
Qed.

(** The loop of [GetHealthyServers] over valid pointers: it returns, leaves
    the structs alone, and appends the pointers of the healthy servers, in
    order, to the slice it builds; slices taken before are untouched. *)
Lemma collectHealthy_store ps : forall st h,
  backed st h ->
  Forall (fun p => exists l, p = Some l /\ l < length (objects st)) ps ->
  exists h' st',
    collectHealthy growCap st ps h = Returned (h', st')
    /\ objects st' = objects st
    /\ elements st' h' = elements st h ++ List.filter (isHealthy st) ps
    /\ backed st' h'
    /\ sarr h <= sarr h'
    /\ (forall t, snapshotOf st h t ->
          elements st' t = elements st t /\ snapshotOf st' h' t).
Proof.
  induction ps as [|p rest IH]; intros st h Hb Hv.
  - exists h, st. cbn [collectHealthy List.filter]. rewrite app_nil_r.
    split; [reflexivity|]. split; [reflexivity|]. split; [reflexivity|].
    split; [exact Hb|].
    split; [lia|]. intros t Ht. split; [reflexivity | exact Ht].
  - inversion Hv as [|? ? (l & -> & Hl) Hrest]; subst.
    destruct (lookup_lt_is_Some_2 (objects st) l Hl) as [server Hs].
    assert (Hs' : load st (Some l) = Some server) by exact Hs.
    cbn [load] in Hs'.
    assert (Hstep : collectHealthy growCap st (Some l :: rest) h
              = if Healthy server
                then collectHealthy growCap (snd (append growCap st h l)) rest
                       (fst (append growCap st h l))
                else collectHealthy growCap st rest h).
    { cbn [collectHealthy load]. rewrite Hs'.
      destruct (Healthy server); [|reflexivity].
      now destruct (append growCap st h l). }
    assert (Hfilt : List.filter (isHealthy st) (Some l :: rest)
              = if Healthy server
                then Some l :: List.filter (isHealthy st) rest
                else List.filter (isHealthy st) rest).
    { cbn [List.filter]. unfold isHealthy at 1. cbn [load]. now rewrite Hs'. }
    destruct (Healthy server) eqn:Hh.
    + pose proof (append_spec growCap st h l Hb) as (Hobj & Hel & Hbk & Hfr).
      pose proof (append_sarr st h l Hb) as Hsarr.
      destruct (append growCap st h l) as [h1 st1]. cbn [fst snd] in *.
      destruct (IH st1 h1 Hbk)
        as (h' & st' & Hrun & Hobj' & Hel' & Hbk' & Hsarr' & Hfr').
      { rewrite Hobj. exact Hrest. }
      exists h', st'. rewrite Hstep, Hfilt.
      split; [exact Hrun|]. split; [congruence|].
      split; [|split; [exact Hbk'|split; [lia|]]].
      * rewrite Hel', Hel, <- app_assoc. cbn [app]. do 2 f_equal.
        apply filter_ext. intros q. unfold isHealthy, load. now rewrite Hobj.
      * intros t Ht. destruct (Hfr t Ht) as [E1 S1].
        destruct (Hfr' t S1) as [E2 S2]. split; [congruence | exact S2].
    + destruct (IH st h Hb Hrest) as (h' & st' & IH').
      exists h', st'. rewrite Hstep, Hfilt. exact IH'.
Qed.

Lemma filter_map_load st (ps : list (option ptr)) :
  map (load st) (List.filter (isHealthy st) ps)
  = List.filter (fun o => match o with Some server => Healthy server | None => false end)
                (map (load st) ps).
Proof.
  induction ps as [|p ps IH]; [reflexivity|].
  cbn [List.filter map]. unfold isHealthy at 1.
  destruct (load st p) as [server|] eqn:E; [destruct (Healthy server)|];
    cbn [map]; cbv iota; rewrite ?E, IH; reflexivity.
Qed.

(** [GetHealthyServers] on a well-formed registry. *)
Lemma GetHealthyServers_spec (m : Manager) (st : Store) :
  backed st (servers m) ->
  closed st (servers m) ->
  exists h st',
    GetHealthyServers growCap m st = Returned (h, st')
    /\ backed st' h
    /\ view st' h
       = List.filter (fun o => match o with
                               | Some server => Healthy server
                               | None => false
                               end) (view st (servers m))
    /\ objects st' = objects st
    /\ view st' (servers m) = view st (servers m)
    /\ sarr h <> sarr (servers m).
Proof.
  intros Hb Hc. unfold GetHealthyServers, make0.
  set (st0 := {| objects := objects st; arrays := arrays st ++ [[]] |}).
  set (h0 := {| sarr := length (arrays st); slen := 0; scap := 0 |}).
  assert (Hb0 : backed st0 h0).
  { exists []. unfold st0, h0. cbn [arrays sarr slen scap].
    rewrite list_lookup_middle by reflexivity. cbn. split; [reflexivity|]. lia. }
  assert (Hidx : sarr (servers m) < length (arrays st)).
  { destruct Hb as (a & Ha & _). eapply lookup_lt_Some; eauto. }
  assert (Hel0 : elements st0 (servers m) = elements st (servers m)).
  { unfold elements, st0. cbn [arrays]. now rewrite lookup_app_l. }
  assert (Hsnap : snapshotOf st0 h0 (servers m)).
  { unfold snapshotOf, st0, h0. cbn [arrays sarr]. rewrite length_app. cbn. lia. }
  destruct (collectHealthy_store (elements st (servers m)) st0 h0 Hb0 Hc)
    as (h & st' & Hrun & Hobj & Hel & Hbk & Hsarr & Hfr).
  destruct (Hfr (servers m) Hsnap) as [Hkeep _].
  exists h, st'. split; [exact Hrun|]. split; [exact Hbk|].
  assert (Hload : forall p, load st' p = load st p).
  { intros p. unfold load. now rewrite Hobj. }
  split; [|split; [exact Hobj|split]].
  - unfold view. rewrite Hel. unfold elements at 1. unfold h0 at 1 2.
    cbn [sarr slen take app].
    rewrite (map_ext _ _ Hload).
    rewrite <- filter_map_load. reflexivity.
  - unfold view. rewrite Hkeep, Hel0. apply map_ext. exact Hload.
  - unfold h0 in Hsarr. cbn [sarr] in Hsarr. lia.
Qed.

(** X5 ([GetHealthyServers] returns the healthy servers, in registry
    order).  On a registry whose slice is backed by its array and holds
    valid pointers, [GetHealthyServers] returns (it does not panic); the
    slice it returns shows exactly the servers of the registry whose
    [Healthy] flag is set, in registry order; it lives in an array of its
    own, and the call changes neither a [Server] struct nor what the
    registry shows. *)
Theorem GetHealthyServers_filters_registry (m : Manager) (st : Store) :
  backed st (servers m) ->
  closed st (servers m) ->
  exists h st',
    GetHealthyServers growCap m st = Returned (h, st')
    /\ view st' h
       = List.filter (fun o => match o with
                               | Some server => Healthy server
                               | None => false
                               end) (view st (servers m))
    /\ objects st' = objects st
    /\ view st' (servers m) = view st (servers m)
    /\ sarr h <> sarr (servers m).
Proof.
  intros Hb Hc.
  destruct (GetHealthyServers_spec m st Hb Hc) as (h & st' & Hrun & _ & Hrest).
  now exists h, st'.
Qed.

(** X6 (a server is unhealthy until it is checked).  [AddServer] registers
    every server with [Healthy = false]: on a registry built by
    [NewManager] and any sequence of [AddServer] calls, with no health
    check made yet, [GetHealthyServers] returns a slice of length zero. *)
Theorem GetHealthyServers_empty_before_first_check (entries : list (string * Z)) :
  exists h st',
    GetHealthyServers growCap (fst (registry growCap entries))
                      (snd (registry growCap entries)) = Returned (h, st')
    /\ slen h = 0
    /\ view st' h = [].
Proof.
  destruct (registry_spec growCap entries) as (Hview & Hb & Hc).
  destruct (GetHealthyServers_spec _ _ Hb Hc) as (h & st' & Hrun & Hbk & Hv & _).
  exists h, st'. split; [exact Hrun|].
  assert (Hnil : view st' h = []).
  { rewrite Hv, Hview. clear. induction entries as [|e es IH]; [reflexivity|].
    cbn [map List.filter Healthy]. exact IH. }
  split; [|exact Hnil].
  rewrite <- (elements_length st' h Hbk).
  unfold view in Hnil. apply map_eq_nil in Hnil. now rewrite Hnil.
Qed.

End RegistryMore.

Section RegistryMoreExamples.
Import backend.

Lemma GetHealthyServers_filters_registry_witness :
  let m := fst (registry doubling [("localhost"%string, 8081%Z)]) in
  let st := snd (registry doubling [("localhost"%string, 8081%Z)]) in
  exists h st',
    GetHealthyServers doubling m st = Returned (h, st')
    /\ view st' h = [].
Proof.
  intros m st.
  assert (Hb : backed st (servers m)).
  { exists [Some 0%nat]. split; [reflexivity|]. split; cbn; lia. }
  assert (Hc : closed st (servers m)).
  { constructor; [|constructor]. exists 0%nat. split; [reflexivity|]. cbn. lia. }
  destruct (GetHealthyServers_filters_registry doubling m st Hb Hc)
    as (h & st' & Hrun & Hview & _).
  exists h, st'. split; [exact Hrun|]. rewrite Hview. reflexivity.
Defined.

End RegistryMoreExamples.

(** ** Dial addresses *)

Section Addresses.
Import backend.
Local Open Scope string_scope.

Lemma colon_in_middle a b :
  In ":"%char (list_ascii_of_string (a ++ String ":" b)).
Proof.
  induction a as [|c a IH]; cbn; [now left | now right].
Qed.

Lemma digits_no_colon d :
  ~ In ":"%char (list_ascii_of_string (NilEmpty.string_of_uint d)).
Proof.
  induction d; cbn; try tauto; intros [E|H]; try discriminate E; now apply IHd.
Qed.

Lemma itoa_no_colon z : ~ In ":"%char (list_ascii_of_string (itoa z)).
Proof.
  unfold itoa, NilZero.string_of_int, NilZero.string_of_uint.
  destruct (Z.to_int z) as [d|d].
  - destruct d; try apply (digits_no_colon (_ d)).
    cbn. intros [E|[]]. discriminate E.
  - cbn [list_ascii_of_string]. intros [E|H]; [discriminate E|].
    revert H. destruct d; try apply (digits_no_colon (_ d)).
    cbn. intros [E|[]]. discriminate E.
Qed.

Lemma itoa_inj z z' : itoa z = itoa z' -> z = z'.
Proof.
  assert (Hnn : forall n, Z.to_int n <> Decimal.Pos Decimal.Nil
                          /\ Z.to_int n <> Decimal.Neg Decimal.Nil).
  { intros [|q|q]; cbn; split; try discriminate;
      intros [= E]; now apply (Unsigned.to_uint_nonnil q). }
  intros H. unfold itoa in H. apply (f_equal NilZero.int_of_string) in H.
  rewrite !NilZero.isi in H by apply Hnn.
  injection H as H. now apply DecimalZ.to_int_inj.
Qed.

(** A string is split in one way only at its last colon. *)
Lemma split_at_last_colon a a' d d' :
  ~ In ":"%char (list_ascii_of_string d) ->
  ~ In ":"%char (list_ascii_of_string d') ->
  a ++ String ":" d = a' ++ String ":" d' ->
  a = a' /\ d = d'.
Proof.
  intros Hd Hd'. revert a'. induction a as [|c a IH]; intros [|c' a'] H; cbn in H.
  - injection H as ->. auto.
  - injection H as <- ->. destruct Hd. apply colon_in_middle.
  - injection H as -> <-. destruct Hd'. apply colon_in_middle.
  - injection H as -> H. destruct (IH a' H) as [-> ->]. auto.
Qed.

(** X7 (distinct identities dial distinct addresses).  The address string
    built by [GetAddress] determines the server's address and port: two
    servers have the same [GetAddress] exactly when they have the same
    (address, port) identity, also when the address part contains colons
    or the port is negative. *)
Theorem GetAddress_determines_identity (s s' : Server) :
  GetAddress s = GetAddress s' <-> identity s = identity s'.
Proof.
  unfold GetAddress, identity. split.
  - intros H. change (":" ++ itoa (Port s)) with (String ":" (itoa (Port s))) in H.
    change (":" ++ itoa (Port s')) with (String ":" (itoa (Port s'))) in H.
    apply split_at_last_colon in H as [-> Hp]; try apply itoa_no_colon.
    now rewrite (itoa_inj _ _ Hp).
  - now intros [= -> ->].
Qed.

End Addresses.

(** ** The health checker, continued *)

Section HealthCheckerMore.
Import backend health.

(** The server as [checkServer] leaves it. *)
Lemma DialTimeout_elapsed net addr timeout :
  snd (DialTimeout net addr timeout) <= timeout.
Proof.
  unfold DialTimeout. destruct (net addr) as [d|d|]; cbn [snd]; try lia;
    destruct (Z.ltb_spec d timeout); cbn [snd]; lia.
Qed.

Lemma IsReachable_same_address net (s s' : Server) :
  Address s' = Address s -> Port s' = Port s ->
  IsReachable net s' = IsReachable net s.
Proof. intros Ha Hp. unfold IsReachable, GetAddress. now rewrite Ha, Hp. Qed.

(** One health check, in full: the result, the log and the duration. *)
Lemma checkServer_full c net now st l s :
  load st (Some l) = Some s ->
  checkServer c net now st (Some l) =
    Returned
      ({| objects :=
            <[l := {| Address := Address s; Port := Port s;
                      Healthy := fst (IsReachable net s);
                      LastChecked := now |}]> (objects st);
          arrays := arrays st |},
       (if Bool.eqb (Healthy s) (fst (IsReachable net s)) then []
        else if fst (IsReachable net s)
             then [("Server " ++ GetAddress s ++ " is now healthy")%string]
             else [("Server " ++ GetAddress s ++ " is now unhealthy")%string]),
       snd (IsReachable net s)).
Proof.
  intros Hs. unfold checkServer. rewrite Hs.
  cbn [Address Port Healthy LastChecked].
  rewrite (IsReachable_same_address net s
             {| Address := Address s; Port := Port s; Healthy := Healthy s;
                LastChecked := now |}) by reflexivity.
  change (GetAddress {| Address := Address s; Port := Port s;
                        Healthy := Healthy s; LastChecked := now |})
    with (GetAddress s).
  destruct (IsReachable net s) as [reachable elapsed]. cbn [fst snd].
  destruct reachable, (Healthy s); reflexivity.
Qed.

(** X8 (a health check logs transitions only).  The check of a server sets
    its [Healthy] flag to the result of the probe and its [LastChecked] to
    the time of the check, keeps its address and port, and touches no other
    server and no slice.  It logs one line exactly when the flag changes
    value ("is now healthy" or "is now unhealthy") and nothing otherwise,
    and takes at most five seconds.  A nil server panics. *)
Theorem checkServer_logs_transitions_only (c : Checker) (net : Network)
    (now : Z) (st : Store) (l : ptr) (s : Server) :
  load st (Some l) = Some s ->
  exists st' logs t,
    checkServer c net now st (Some l) = Returned (st', logs, t)
    /\ load st' (Some l)
       = Some {| Address := Address s; Port := Port s;
                 Healthy := fst (IsReachable net s); LastChecked := now |}
    /\ (forall l', l' <> l -> load st' (Some l') = load st (Some l'))
    /\ arrays st' = arrays st
    /\ (logs = [] <-> Healthy s = fst (IsReachable net s))
    /\ (Healthy s = false -> fst (IsReachable net s) = true ->
          logs = [("Server " ++ GetAddress s ++ " is now healthy")%string])
    /\ (Healthy s = true -> fst (IsReachable net s) = false ->
          logs = [("Server " ++ GetAddress s ++ " is now unhealthy")%string])
    /\ t <= 5 * Second
    /\ checkServer c net now st None = Panicked.
Proof.
  intros Hs. rewrite (checkServer_full c net now st l s Hs).
  do 3 eexists. split; [reflexivity|].
  assert (Hl : (l < length (objects st))%nat).
  { cbn [load] in Hs. eapply lookup_lt_Some; eauto. }
  split; [|split; [|split; [reflexivity|]]].
  - cbn [load objects]. now apply list_lookup_insert_eq.
  - intros l' Hne. cbn [load objects]. apply list_lookup_insert_ne. congruence.
  - split; [|split; [|split; [|split; [|reflexivity]]]].
    + destruct (Healthy s), (fst (IsReachable net s)); cbn;
        split; intros H; congruence.
    + intros -> ->. reflexivity.
    + intros -> ->. reflexivity.
    + apply DialTimeout_elapsed.
Qed.

Lemma checkServer_logs_transitions_only_witness :
  exists st' t,
    checkServer (NewChecker (30 * Second) (5 * Second))
                (fun _ => Accepts Millisecond) Second
                (snd (registry doubling [("localhost"%string, 8081)]))
                (Some 0%nat)
      = Returned (st', ["Server localhost:8081 is now healthy"%string], t).
Proof.
  destruct (checkServer_logs_transitions_only
              (NewChecker (30 * Second) (5 * Second))
              (fun _ => Accepts Millisecond) Second
              (snd (registry doubling [("localhost"%string, 8081)])) 0%nat
              {| Address := "localhost"; Port := 8081; Healthy := false;
                 LastChecked := 0 |} eq_refl)
    as (st' & logs & t & Hrun & _ & _ & _ & _ & Hup & _).
  exists st', t. refine (eq_trans Hrun _).
  now rewrite (Hup eq_refl eq_refl).
Defined.

(** *** A check cycle *)

Lemma option_ptr_eq_dec (p q : option ptr) : {p = q} + {p <> q}.
Proof. decide equality. apply Nat.eq_dec. Qed.

Lemma load_functional st (l : ptr) s s' :
  load st (Some l) = Some s -> load st (Some l) = Some s' -> s = s'.
Proof. congruence. Qed.

(** The loop of [checkAll] over valid pointers. *)
Lemma checkEach_spec c net ps : forall now st,
  Forall (fun p => exists l, p = Some l /\ (l < length (objects st))%nat) ps ->
  exists st' logs t,
    checkEach c net now st ps = Returned (st', logs, t)
    /\ arrays st' = arrays st
    /\ length (objects st') = length (objects st)
    /\ (forall (l : ptr) s,
          load st (Some l) = Some s ->
          exists s',
            load st' (Some l) = Some s'
            /\ Address s' = Address s /\ Port s' = Port s
            /\ (In (Some l) ps -> Healthy s' = fst (IsReachable net s))
            /\ (~ In (Some l) ps -> s' = s))
    /\ t <= 5 * Second * len ps
    /\ ((forall (l : ptr) s,
           In (Some l) ps -> load st (Some l) = Some s ->
           Healthy s = fst (IsReachable net s)) -> logs = []).
Proof.
  induction ps as [|p rest IH]; intros now st Hv.
  - exists st, [], 0. cbn [checkEach]. change (len []) with 0.
    split; [reflexivity|]. split; [reflexivity|]. split; [reflexivity|].
    split; [|split; [lia | reflexivity]].
    intros l s Hs. exists s. repeat split; auto. intros [].
  - inversion Hv as [|? ? (l & -> & Hl) Hrest]; subst.
    destruct (lookup_lt_is_Some_2 (objects st) l Hl) as [s Hs0].
    assert (Hs : load st (Some l) = Some s) by exact Hs0.
    set (s2 := {| Address := Address s; Port := Port s;
                  Healthy := fst (IsReachable net s); LastChecked := now |}).
    set (st1 := {| objects := <[l := s2]> (objects st); arrays := arrays st |}).
    assert (Hreach2 : IsReachable net s2 = IsReachable net s)
      by (now apply IsReachable_same_address).
    assert (Hload1 : load st1 (Some l) = Some s2).
    { cbn [load st1 objects]. now apply list_lookup_insert_eq. }
    assert (Hother : forall l0 : ptr, l0 <> l -> load st1 (Some l0) = load st (Some l0)).
    { intros l0 Hne. cbn [load st1 objects]. apply list_lookup_insert_ne. congruence. }
    assert (Hv1 : Forall (fun p => exists l, p = Some l
                            /\ (l < length (objects st1))%nat) rest).
    { eapply Forall_impl; [exact Hrest|]. cbn. intros p (l0 & -> & Hl0).
      exists l0. split; [reflexivity|]. now rewrite length_insert. }
    destruct (IH (now + snd (IsReachable net s)) st1 Hv1)
      as (st2 & logs2 & t2 & Hrun & Harr & Hlen & Hobj & Ht & Hquiet).
    pose proof (checkServer_full c net now st l s Hs) as Hfull.
    fold s2 st1 in Hfull. unfold ptr in Hfull.
    assert (Hwhole : exists logs1,
              checkEach c net now st (Some l :: rest)
                = Returned (st2, logs1 ++ logs2, snd (IsReachable net s) + t2)
              /\ (Healthy s = fst (IsReachable net s) -> logs1 = [])).
    { eexists. split.
      - change (checkEach c net now st (Some l :: rest))
          with (match checkServer c net now st (Some l) with
                | Returned (st1, logs1, t1) =>
                    match checkEach c net (now + t1) st1 rest with
                    | Returned (st2, logs2, t2) =>
                        Returned (st2, logs1 ++ logs2, t1 + t2)
                    | Panicked => Panicked
                    end
                | Panicked => Panicked
                end).
        rewrite Hfull. cbv beta iota. unfold ptr, st1 in Hrun. rewrite Hrun.
        reflexivity.
      - intros ->. now rewrite Bool.eqb_reflx. }
    destruct Hwhole as (logs1 & Hwhole & Hlogs1).
    do 3 eexists. split; [exact Hwhole|].
    split; [exact Harr|]. split; [rewrite Hlen; cbn; now rewrite length_insert|].
    split; [|split].
    + intros l0 s0 Hl0. destruct (Nat.eq_dec l0 l) as [->|Hne].
      * assert (s0 = s) by exact (load_functional st l s0 s Hl0 Hs). subst s0.
        destruct (Hobj l s2 Hload1) as (s' & Hl' & Ha & Hp & Hin & Hout).
        exists s'. split; [exact Hl'|]. split; [exact Ha|]. split; [exact Hp|].
        split.
        -- intros _. destruct (in_dec option_ptr_eq_dec (Some l) rest) as [Hi|Hni].
           ++ rewrite (Hin Hi). now rewrite Hreach2.
           ++ now rewrite (Hout Hni).
        -- intros Hn. destruct Hn. now left.
      * rewrite <- (Hother l0 Hne) in Hl0.
        destruct (Hobj l0 s0 Hl0) as (s' & Hl' & Ha & Hp & Hin & Hout).
        exists s'. split; [exact Hl'|]. split; [exact Ha|]. split; [exact Hp|].
        split.
        -- intros [E|Hi]; [congruence | now apply Hin].
        -- intros Hn. apply Hout. intros Hi. apply Hn. now right.
    + pose proof (DialTimeout_elapsed net (GetAddress s) (5 * Second)) as Ht1.
      fold (IsReachable net s) in Ht1.
      assert (Hlen' : len (Some l :: rest) = 1 + len rest)
        by (unfold len; cbn [length]; lia).
      rewrite Hlen'. unfold Second, Millisecond in *. lia.
    + intros Hsteady.
      assert (Hhere : Healthy s = fst (IsReachable net s))
        by (apply (Hsteady l); [now left | exact Hs]).
      rewrite (Hlogs1 Hhere). cbn [app]. apply Hquiet.
      intros l0 s0 Hi Hl0. destruct (Nat.eq_dec l0 l) as [->|Hne].
      * assert (s0 = s2) by exact (load_functional st1 l s0 s2 Hl0 Hload1).
        subst s0. now rewrite Hreach2.
      * rewrite (Hother l0 Hne) in Hl0. apply (Hsteady l0); [now right | exact Hl0].
Qed.

(** One cycle over a registry with valid pointers. *)
Lemma checkAll_spec c m net now st :
  closed st (servers m) ->
  exists st' logs t,
    checkAll c m net now st = Returned (st', logs, t)
    /\ elements st' (servers m) = elements st (servers m)
    /\ closed st' (servers m)
    /\ map (fmap (fun s => (Address s, Port s, Healthy s))) (view st' (servers m))
       = map (fmap (fun s => (Address s, Port s, fst (IsReachable net s))))
             (view st (servers m))
    /\ t <= 5 * Second * len (elements st (servers m))
    /\ ((forall o s, In o (view st (servers m)) -> o = Some s ->
           Healthy s = fst (IsReachable net s)) -> logs = []).
Proof.
  intros Hc. unfold checkAll, GetAllServers.
  destruct (checkEach_spec c net (elements st (servers m)) now st Hc)
    as (st' & logs & t & Hrun & Harr & Hlen & Hobj & Ht & Hquiet).
  exists st', logs, t. split; [exact Hrun|].
  assert (He : elements st' (servers m) = elements st (servers m)).
  { unfold elements. now rewrite Harr. }
  split; [exact He|]. split; [|split; [|split; [exact Ht|]]].
  - unfold closed. rewrite He, Hlen. exact Hc.
  - unfold view. rewrite He, !map_map. apply map_ext_in. intros p Hp.
    unfold closed in Hc. rewrite Forall_forall in Hc.
    destruct (Hc p) as (l & -> & Hl); [now apply list_elem_of_In|].
    destruct (lookup_lt_is_Some_2 (objects st) l Hl) as [s Hs0].
    assert (Hs : load st (Some l) = Some s) by exact Hs0.
    destruct (Hobj l s Hs) as (s' & Hs' & Ha & Hpt & Hin & _).
    unfold ptr in *. rewrite Hs, Hs'. cbn. now rewrite Ha, Hpt, (Hin Hp).
  - intros Hsteady. apply Hquiet. intros l s Hi Hs.
    apply (Hsteady (Some s) s); [|reflexivity].
    unfold view. rewrite <- Hs. now apply in_map.
Qed.

(** X9 (a check cycle sets every flag to the reachability of its server).
    On a registry whose slice holds valid pointers, [checkAll] returns (it
    does not panic); afterwards the registry shows the same servers, in the
    same order, each with its address and port and with [Healthy] equal to
    the result of the probe of its address; the cycle checks the servers
    one after the other and takes at most five seconds per server. *)
Theorem checkAll_sets_flags_to_reachability (c : Checker) (m : Manager)
    (net : Network) (now : Z) (st : Store) :
  closed st (servers m) ->
  exists st' logs t,
    checkAll c m net now st = Returned (st', logs, t)
    /\ elements st' (servers m) = elements st (servers m)
    /\ map (fmap (fun s => (Address s, Port s, Healthy s))) (view st' (servers m))
       = map (fmap (fun s => (Address s, Port s, fst (IsReachable net s))))
             (view st (servers m))
    /\ t <= 5 * Second * len (elements st (servers m)).
Proof.
  intros Hc.
  destruct (checkAll_spec c m net now st Hc)
    as (st' & logs & t & Hrun & He & _ & Hflags & Ht & _).
  now exists st', logs, t.
Qed.

(** X10 (a second cycle on an unchanged network is silent).  When a cycle
    has run, a following cycle that finds the network as it was logs
    nothing and leaves every [Healthy] flag as it is, whatever the
    settings of the checker and the time of the cycle. *)
Theorem checkAll_again_logs_nothing (c c' : Checker) (m : Manager)
    (net : Network) (now now' : Z) (st st1 : Store) (logs1 : list string)
    (t1 : Z) :
  closed st (servers m) ->
  checkAll c m net now st = Returned (st1, logs1, t1) ->
  exists st2 t2,
    checkAll c' m net now' st1 = Returned (st2, [], t2)
    /\ map (fmap Healthy) (view st2 (servers m))
       = map (fmap Healthy) (view st1 (servers m)).
Proof.
  intros Hc Hrun1.
  destruct (checkAll_spec c m net now st Hc)
    as (st1' & logs1' & t1' & Hrun1' & He1 & Hc1 & Hflags1 & _ & _).
  rewrite Hrun1 in Hrun1'. injection Hrun1' as <- <- <-.
  assert (Hsteady : forall o s, In o (view st1 (servers m)) -> o = Some s ->
            Healthy s = fst (IsReachable net s)).
  { intros o s Hi ->.
    apply (in_map (fmap (fun s => (Address s, Port s, Healthy s)))) in Hi.
    rewrite Hflags1 in Hi. apply in_map_iff in Hi as (o0 & Ho0 & _).
    destruct o0 as [s0|]; [|discriminate]. cbn in Ho0.
    injection Ho0 as Ha Hp Hh. rewrite <- Hh.
    f_equal. apply IsReachable_same_address; congruence. }
  destruct (checkAll_spec c' m net now' st1 Hc1)
    as (st2 & logs2 & t2 & Hrun2 & _ & _ & Hflags2 & _ & Hquiet).
  rewrite (Hquiet Hsteady) in Hrun2.
  exists st2, t2. split; [exact Hrun2|].
  apply (f_equal (map (fmap (fun x : string * Z * bool => snd x)))) in Hflags2.
  rewrite !map_map in Hflags2.
  erewrite (map_ext _ (fmap Healthy)) in Hflags2
    by (intros [s|]; reflexivity).
  rewrite Hflags2. apply map_ext_in. intros o Hi.
  destruct o as [s|]; [|reflexivity]. cbn.
  now rewrite (Hsteady (Some s) s Hi eq_refl).
Qed.

End HealthCheckerMore.

Section HealthCheckerExamples.
Import backend health.

Lemma checkAll_sets_flags_to_reachability_witness :
  let reg := registry doubling [("up"%string, 1); ("down"%string, 2)] in
  let net : Network :=
    fun addr => if String.eqb addr "up:1" then Accepts Millisecond else Silent in
  closed (snd reg) (servers (fst reg))
  /\ exists st' logs t,
       checkAll (NewChecker (30 * Second) (5 * Second)) (fst reg) net 0 (snd reg)
         = Returned (st', logs, t)
       /\ map (fmap Healthy) (view st' (servers (fst reg))) = [Some true; Some false].
Proof.
  intros reg net.
  assert (Hc : closed (snd reg) (servers (fst reg))).
  { repeat constructor; eexists; (split; [reflexivity|]); cbn; lia. }
  split; [exact Hc|].
  destruct (checkAll_sets_flags_to_reachability
              (NewChecker (30 * Second) (5 * Second)) (fst reg) net 0 (snd reg) Hc)
    as (st' & logs & t & Hrun & _ & Hflags & _).
  exists st', logs, t. split; [exact Hrun|].
  apply (f_equal (map (fmap (fun x : string * Z * bool => snd x)))) in Hflags.
  rewrite !map_map in Hflags.
  erewrite (map_ext _ (fmap Healthy)) in Hflags by (intros [s|]; reflexivity).
  rewrite Hflags. reflexivity.
Defined.

Lemma checkAll_again_logs_nothing_witness :
  let reg := registry doubling [("up"%string, 1); ("down"%string, 2)] in
  let net : Network :=
    fun addr => if String.eqb addr "up:1" then Accepts Millisecond else Silent in
  exists st1 logs1 t1,
    checkAll (NewChecker (30 * Second) (5 * Second)) (fst reg) net 0 (snd reg)
      = Returned (st1, logs1, t1)
    /\ exists st2 t2,
         checkAll (NewChecker Second Second) (fst reg) net (30 * Second) st1
           = Returned (st2, [], t2)
         /\ map (fmap Healthy) (view st2 (servers (fst reg)))
            = map (fmap Healthy) (view st1 (servers (fst reg))).
Proof.
  intros reg net.
  assert (Hc : closed (snd reg) (servers (fst reg))).
  { repeat constructor; eexists; (split; [reflexivity|]); cbn; lia. }
  do 3 eexists. split; [reflexivity|].
  exact (checkAll_again_logs_nothing
           (NewChecker (30 * Second) (5 * Second)) (NewChecker Second Second)
           (fst reg) net 0 (30 * Second) (snd reg) _ _ _ Hc eq_refl).
Defined.

End HealthCheckerExamples.

(** ** From a check cycle to a selection *)

Section EndToEnd.
Import backend health integration.

Lemma closed_view st sl :
  closed st sl -> exists ss, view st sl = map Some ss.
Proof.
  unfold closed, view. induction (elements st sl) as [|p ps IH]; intros Hc.
  - now exists [].
  - inversion Hc as [|? ? (l & -> & Hl) Hrest]; subst.
    destruct (IH Hrest) as [ss Hss].
    destruct (lookup_lt_is_Some_2 (objects st) l Hl) as [s Hs0].
    exists (s :: ss). cbn [map]. rewrite Hss. f_equal. exact Hs0.
Qed.

Lemma toBackends_spec st ps : forall acc ss,
  map (load st) ps = map Some ss ->
  toBackends st ps acc = Returned (acc ++ map asBackend ss).
Proof.
  induction ps as [|p ps IH]; intros acc [|s ss] H; try discriminate H.
  - cbn. now rewrite app_nil_r.
  - cbn [map] in H. injection H as Hp Hps.
    cbn [toBackends]. rewrite Hp, (IH _ ss Hps), <- app_assoc. reflexivity.
Qed.

Lemma map_Some_inj {A} (xs ys : list A) : map Some xs = map Some ys -> xs = ys.
Proof.
  revert ys. induction xs as [|x xs IH]; intros [|y ys] H; try discriminate H.
  - reflexivity.
  - cbn in H. injection H as -> H. now rewrite (IH ys H).
Qed.

Lemma rr_nil_iff (rr : balancer.RoundRobinAlgorithm) bs :
  fst (balancer.RoundRobin_SelectBackend rr bs) = Returned None
  <-> balancer.healthyOf bs = [].
Proof.
  split.
  - intros H. destruct (balancer.healthyOf bs) as [|h hs] eqn:Hh; [reflexivity|].
    rewrite rr_select_some in H by (rewrite Hh; discriminate). discriminate H.
  - intros H. now rewrite rr_select_none.
Qed.

(** X11 (after a check cycle, round robin selects reachable servers only).
    Take a registry with valid pointers, run one check cycle, turn the
    servers of [GetAllServers] into balancer backends as the integration
    tests do, and select with round robin, from any counter value.  The
    conversion does not panic and gives one backend per server; a backend
    that is selected carries an address whose probe succeeded in that
    cycle; and the selection answers nil exactly when the probe of every
    server failed. *)
Theorem selection_after_check_is_reachable (c : Checker) (m : Manager)
    (net : Network) (now : Z) (st st1 : Store) (logs : list string) (t : Z)
    (rr : balancer.RoundRobinAlgorithm) :
  closed st (servers m) ->
  checkAll c m net now st = Returned (st1, logs, t) ->
  exists bs,
    toBackends st1 (elements st1 (GetAllServers m)) [] = Returned bs
    /\ len bs = len (elements st (servers m))
    /\ (forall p b,
          fst (balancer.RoundRobin_SelectBackend rr bs) = Returned (Some p) ->
          balancer.deref p = Some b ->
          fst (DialTimeout net (balancer.Address b) (5 * Second)) = true)
    /\ (fst (balancer.RoundRobin_SelectBackend rr bs) = Returned None
        <-> forall s, In (Some s) (view st (servers m)) ->
                      fst (IsReachable net s) = false).
Proof.
  intros Hc Hrun.
  destruct (checkAll_spec c m net now st Hc)
    as (st1' & logs' & t' & Hrun' & He & Hc1 & Hflags & _ & _).
  rewrite Hrun in Hrun'. injection Hrun' as <- <- <-.
  destruct (closed_view st (servers m) Hc) as [ss0 Hv0].
  destruct (closed_view st1 (servers m) Hc1) as [ss Hv1].
  rewrite Hv0, Hv1, !map_map in Hflags. cbn [fmap option_fmap option_map] in Hflags.
  assert (Hsame : map (fun s => (Address s, Port s, Healthy s)) ss
                  = map (fun s => (Address s, Port s, fst (IsReachable net s))) ss0).
  { apply map_Some_inj. now rewrite !map_map. }
  exists (map asBackend ss). unfold GetAllServers.
  split; [exact (toBackends_spec st1 _ [] ss Hv1)|].
  split.
  { unfold len. rewrite length_map.
    rewrite <- (length_map Some ss), <- Hv1. unfold view.
    now rewrite length_map, He. }
  assert (Hback : forall s1, In s1 ss ->
            exists s0, In s0 ss0 /\ GetAddress s1 = GetAddress s0
                       /\ Healthy s1 = fst (IsReachable net s0)).
  { intros s1 Hi.
    apply (in_map (fun s => (Address s, Port s, Healthy s))) in Hi.
    rewrite Hsame in Hi. apply in_map_iff in Hi as (s0 & E & Hi0).
    injection E as Ha Hp Hh. exists s0. split; [exact Hi0|].
    unfold GetAddress. now rewrite Ha, Hp, Hh. }
  assert (Hforth : forall s0, In s0 ss0 ->
            exists s1, In s1 ss /\ Healthy s1 = fst (IsReachable net s0)).
  { intros s0 Hi.
    apply (in_map (fun s => (Address s, Port s, fst (IsReachable net s)))) in Hi.
    rewrite <- Hsame in Hi. apply in_map_iff in Hi as (s1 & E & Hi1).
    injection E as _ _ Hh. now exists s1. }
  split.
  - intros p b Hsel Hderef.
    assert (Hne : balancer.healthyOf (map asBackend ss) <> []).
    { intros E. rewrite rr_select_none in Hsel by exact E. discriminate Hsel. }
    rewrite rr_select_some in Hsel by exact Hne. injection Hsel as <-.
    unfold balancer.deref in Hderef. cbn [balancer.base balancer.offset] in Hderef.
    apply list_elem_of_lookup_2, list_elem_of_In, healthyOf_all_healthy in Hderef
      as [Hin Hh].
    apply in_map_iff in Hin as (s1 & <- & Hi1).
    destruct (Hback s1 Hi1) as (s0 & _ & Ha & Hr).
    cbn [asBackend balancer.Address balancer.Healthy] in *.
    rewrite Ha. unfold IsReachable in Hr. congruence.
  - rewrite rr_nil_iff. split.
    + intros Hnil s0 Hi. rewrite Hv0 in Hi. apply in_map_iff in Hi as (s & [= ->] & Hi).
      destruct (Hforth s0 Hi) as (s1 & Hi1 & Hh).
      destruct (fst (IsReachable net s0)); [|reflexivity].
      exfalso.
      assert (Hin : In (asBackend s1) (balancer.healthyOf (map asBackend ss))).
      { apply filter_In. split; [now apply in_map | exact Hh]. }
      now rewrite Hnil in Hin.
    + intros Hall.
      destruct (balancer.healthyOf (map asBackend ss)) as [|b bs'] eqn:Hh;
        [reflexivity|].
      assert (Hin : In b (balancer.healthyOf (map asBackend ss)))
        by (rewrite Hh; now left).
      apply healthyOf_all_healthy in Hin as [Hin Hb].
      apply in_map_iff in Hin as (s1 & <- & Hi1).
      destruct (Hback s1 Hi1) as (s0 & Hi0 & _ & Hr).
      cbn [asBackend balancer.Healthy] in Hb.
      rewrite Hr, (Hall s0) in Hb; [discriminate Hb|].
      rewrite Hv0. now apply in_map.
Qed.

End EndToEnd.

Section EndToEndExamples.
Import backend health integration.

Lemma selection_after_check_is_reachable_witness :
  let reg := registry doubling [("up"%string, 1); ("down"%string, 2)] in
  let net : Network :=
    fun addr => if String.eqb addr "up:1" then Accepts Millisecond else Silent in
  exists st1 logs t,
    checkAll (NewChecker (30 * Second) (5 * Second)) (fst reg) net 0 (snd reg)
      = Returned (st1, logs, t)
    /\ exists bs,
         toBackends st1 (elements st1 (GetAllServers (fst reg))) [] = Returned bs
         /\ len bs = 2.
Proof.
  intros reg net.
  assert (Hc : closed (snd reg) (servers (fst reg))).
  { repeat constructor; eexists; (split; [reflexivity|]); cbn; lia. }
  do 3 eexists. split; [reflexivity|].
  destruct (selection_after_check_is_reachable
              (NewChecker (30 * Second) (5 * Second)) (fst reg) net 0 (snd reg)
              _ _ _ balancer.NewRoundRobinAlgorithm Hc eq_refl)
    as (bs & Hbs & Hlen & _).
  exists bs. split; [exact Hbs | exact Hlen].
Defined.

End EndToEndExamples.

(** ** The connection pool, continued *)

Section ConnectionPoolMore.
Import pool.

(** What one [Get] does to the fields of the pool. *)
Lemma Get_effect p env :
  - 2 ^ 63 < active p <= maxSize p ->
  maxSize p < 2 ^ 63 ->
  maxSize (snd (fst (Get p env))) = maxSize p
  /\ address (snd (fst (Get p env))) = address p
  /\ active p - 1 <= active (snd (fst (Get p env))) <= maxSize p
  /\ len (connections (snd (fst (Get p env)))) <= len (connections p).
Proof.
  intros Ha Hm. unfold Get, isConnectionValid, createConnection.
  destruct (connections p) as [|conn rest] eqn:Hq.
  - destruct (Z.geb_spec (active p) (maxSize p)); cbn [fst snd].
    + rewrite Hq. repeat split; try reflexivity; lia.
    + destruct (dial env); cbn [fst snd setActive active maxSize address connections];
        rewrite ?wrapInt_small by lia; rewrite Hq;
        repeat split; try reflexivity; lia.
  - assert (Hlen : len rest <= len (conn :: rest))
      by (unfold len; cbn [length]; lia).
    destruct (read1 env conn);
      cbn [fst snd setActive setConnections active maxSize address connections];
      try (repeat split; try reflexivity; lia);
      rewrite wrapInt_small by lia;
      (destruct (Z.geb_spec (active p - 1) (maxSize p)); [lia|]);
      destruct (dial env);
      cbn [fst snd setActive setConnections active maxSize address connections];
      rewrite ?wrapInt_small by lia; repeat split; try reflexivity; lia.
Qed.

Lemma call_effect p c :
  - 2 ^ 63 < active p <= maxSize p ->
  maxSize p < 2 ^ 63 ->
  len (connections p) <= maxSize p ->
  maxSize (fst (call p c)) = maxSize p
  /\ address (fst (call p c)) = address p
  /\ active p - 1 <= active (fst (call p c)) <= maxSize p
  /\ len (connections (fst (call p c))) <= maxSize p.
Proof.
  intros Ha Hm Hq. destruct c as [env|[conn|]]; cbn [call].
  - pose proof (Get_effect p env Ha Hm) as (E1 & E2 & E3 & E4).
    destruct (Get p env) as [[r p'] evs]. cbn [fst snd] in *.
    repeat split; try assumption; lia.
  - unfold Put. destruct (Z.ltb_spec (len (connections p)) (maxSize p));
      cbn [fst setActive setConnections active maxSize address connections].
    + rewrite len_app. change (len [conn]) with 1.
      repeat split; try reflexivity; lia.
    + rewrite wrapInt_small by lia. repeat split; try reflexivity; lia.
  - cbn [Put fst]. repeat split; try reflexivity; lia.
Qed.

Lemma callAll_effect cs : forall p n,
  maxSize p < 2 ^ 63 ->
  0 <= n ->
  n + len cs < 2 ^ 63 ->
  - n <= active p <= maxSize p ->
  len (connections p) <= maxSize p ->
  maxSize (fst (callAll p cs)) = maxSize p
  /\ address (fst (callAll p cs)) = address p
  /\ active (fst (callAll p cs)) <= maxSize p
  /\ len (connections (fst (callAll p cs))) <= maxSize p.
Proof.
  induction cs as [|c rest IH]; intros p n Hm Hn Hlen Ha Hq.
  - cbn [callAll fst]. repeat split; try reflexivity; lia.
  - assert (Hl : len (c :: rest) = 1 + len rest) by (unfold len; cbn [length]; lia).
    pose proof (len_nonneg rest) as Hnn.
    pose proof (call_effect p c ltac:(lia) Hm Hq) as (E1 & E2 & E3 & E4).
    cbn [callAll]. destruct (call p c) as [p1 evs]. cbn [fst] in *.
    specialize (IH p1 (n + 1)).
    destruct (callAll p1 rest) as [p2 evs']. cbn [fst] in *.
    rewrite E1, E2 in IH. apply IH; lia.
Qed.

(** X12 (the counters of the pool stay within [maxSize]).  After any
    sequence of fewer than [2^63] calls of [Get] and [Put] on a new pool,
    with any connections given to [Put] and any answers of the network,
    [ActiveConnections] is at most [maxSize] and [PoolSize] is between zero
    and [maxSize]; the size and the address of the pool are as given to
    [NewConnectionPool]. *)
Theorem pool_counters_stay_bounded (address : string) (K : Z)
    (p0 : ConnectionPool) (cs : list Call) :
  NewConnectionPool address K = Returned p0 ->
  K < 2 ^ 63 ->
  len cs < 2 ^ 63 ->
  maxSize (fst (callAll p0 cs)) = K
  /\ pool.address (fst (callAll p0 cs)) = address
  /\ ActiveConnections (fst (callAll p0 cs)) <= K
  /\ 0 <= PoolSize (fst (callAll p0 cs)) <= K.
Proof.
  intros Hnew HK Hlen. unfold NewConnectionPool in Hnew.
  destruct (Z.ltb_spec K 0) as [?|HK0]; [discriminate|].
  injection Hnew as <-.
  pose proof (callAll_effect cs
                {| pool.address := address; maxSize := K; connections := [];
                   active := 0 |} 0) as H.
  cbn [maxSize pool.address active connections] in H. change (len []) with 0 in H.
  unfold ActiveConnections, PoolSize.
  pose proof (len_nonneg (connections (fst (callAll
                {| pool.address := address; maxSize := K; connections := [];
                   active := 0 |} cs)))).
  destruct H as (E1 & E2 & E3 & E4); try lia.
  repeat split; try assumption; lia.
Qed.

Lemma pool_counters_stay_bounded_witness :
  let p0 := {| pool.address := "localhost:8081"; maxSize := 1;
               connections := []; active := 0 |} in
  let env c := {| read1 := fun _ => ReadEOF; dial := Some c |} in
  let cs := [CallGet (env 0%nat); CallPut (Some 0%nat); CallPut (Some 0%nat);
             CallGet (env 1%nat); CallGet (env 2%nat)] in
  ActiveConnections (fst (callAll p0 cs)) <= 1.
Proof.
  intros p0 env cs.
  exact (proj1 (proj2 (proj2
           (pool_counters_stay_bounded "localhost:8081" 1 p0 cs
              eq_refl eq_refl eq_refl)))).
Defined.

Lemma len_singleton {A} (x : A) : len [x] = 1.
Proof. reflexivity. Qed.

(** One step of a client that releases only what it holds. *)
Lemma clientStep_invariant p held s :
  maxSize p < 2 ^ 63 ->
  active p = len held + len (connections p) ->
  active p <= maxSize p ->
  maxSize (fst (fst (clientStep p held s))) = maxSize p
  /\ active (fst (fst (clientStep p held s)))
     = len (snd (fst (clientStep p held s)))
       + len (connections (fst (fst (clientStep p held s))))
  /\ active (fst (fst (clientStep p held s))) <= maxSize p.
Proof.
  intros Hm Hacc Hle.
  pose proof (len_nonneg held) as Hh. pose proof (len_nonneg (connections p)) as Hq.
  destruct s as [env|i]; cbn [clientStep].
  - unfold Get, isConnectionValid, createConnection.
    destruct (connections p) as [|conn rest] eqn:Eq.
    + destruct (Z.geb_spec (active p) (maxSize p)); cbn [fst snd].
      * rewrite Eq. lia.
      * destruct (dial env) as [c|];
          cbn [fst snd setActive active maxSize connections];
          rewrite ?wrapInt_small by lia; rewrite ?len_app, ?len_singleton, Eq;
          lia.
    + assert (Hl : len (conn :: rest) = 1 + len rest)
        by (unfold len; cbn [length]; lia).
      pose proof (len_nonneg rest).
      destruct (read1 env conn);
        cbn [fst snd setActive setConnections active maxSize connections];
        rewrite ?len_app, ?len_singleton; try lia;
        rewrite wrapInt_small by lia;
        (destruct (Z.geb_spec (active p - 1) (maxSize p)); [lia|]);
        destruct (dial env) as [c|];
        cbn [fst snd setActive setConnections active maxSize connections];
        rewrite ?wrapInt_small by lia; rewrite ?len_app, ?len_singleton; lia.
  - destruct (held !! i) as [c|] eqn:Ei; cbn [fst snd]; [|lia].
    assert (Hpos : 1 <= len held).
    { pose proof (lookup_lt_Some _ _ _ Ei). unfold len. lia. }
    assert (Hdel : len (delete i held) = len held - 1).
    { unfold len in *. rewrite length_delete by eauto. lia. }
    unfold Put. destruct (Z.ltb_spec (len (connections p)) (maxSize p)); [|lia].
    cbn [fst snd setConnections active maxSize connections].
    rewrite len_app. change (len [c]) with 1. lia.
Qed.

Lemma client_invariant steps : forall p held,
  maxSize p < 2 ^ 63 ->
  active p = len held + len (connections p) ->
  active p <= maxSize p ->
  maxSize (fst (fst (client p held steps))) = maxSize p
  /\ active (fst (fst (client p held steps)))
     = len (snd (fst (client p held steps)))
       + len (connections (fst (fst (client p held steps))))
  /\ active (fst (fst (client p held steps))) <= maxSize p.
Proof.
  induction steps as [|s rest IH]; intros p held Hm Hacc Hle.
  - cbn [client fst snd]. lia.
  - pose proof (clientStep_invariant p held s Hm Hacc Hle) as (E1 & E2 & E3).
    cbn [client]. destruct (clientStep p held s) as [[p1 held1] evs].
    cbn [fst snd] in *. specialize (IH p1 held1).
    destruct (client p1 held1 rest) as [[p2 held2] evs']. cbn [fst snd] in *.
    rewrite E1 in IH. apply IH; lia.
Qed.

(** X13 (a user that releases only what it holds never exceeds the limit).
    Let a user of a new pool keep every connection [Get] returns and give
    to [Put] only connections it holds, each once.  Then, whatever the
    network answers, after any number of steps [ActiveConnections] is the
    number of connections the user holds plus the number of idle ones, the
    user holds at most [maxSize] connections, and a [Put] of a connection
    it holds finds room in the idle queue: the connection is kept for
    reuse, not closed. *)
Theorem pool_holds_at_most_maxSize (address : string) (K : Z)
    (p0 : ConnectionPool) (steps : list ClientStep) :
  NewConnectionPool address K = Returned p0 ->
  K < 2 ^ 63 ->
  let p := fst (fst (client p0 [] steps)) in
  let held := snd (fst (client p0 [] steps)) in
  ActiveConnections p = len held + PoolSize p
  /\ len held <= K
  /\ (forall i c, held !! i = Some c ->
        Put p (Some c) = (setConnections p (connections p ++ [c]), [])).
Proof.
  intros Hnew HK. unfold NewConnectionPool in Hnew.
  destruct (Z.ltb_spec K 0) as [?|HK0]; [discriminate|].
  injection Hnew as <-. cbv zeta.
  pose proof (client_invariant steps
                {| pool.address := address; maxSize := K; connections := [];
                   active := 0 |} []) as H.
  cbn [maxSize active connections] in H. change (len []) with 0 in H.
  destruct H as (E1 & E2 & E3); [lia | lia | lia |].
  set (p := fst (fst (client _ [] steps))) in *.
  set (held := snd (fst (client _ [] steps))) in *.
  pose proof (len_nonneg (connections p)) as Hq.
  unfold ActiveConnections, PoolSize.
  split; [exact E2|]. split; [lia|].
  intros i c Hi. unfold Put.
  assert (1 <= len held).
  { apply lookup_lt_Some in Hi. unfold len. lia. }
  destruct (Z.ltb_spec (len (connections p)) (maxSize p)); [reflexivity|lia].
Qed.

Lemma pool_holds_at_most_maxSize_witness :
  let p0 := {| pool.address := "localhost:8081"; maxSize := 2;
               connections := []; active := 0 |} in
  let env c := {| read1 := fun _ => ReadTimeout; dial := Some c |} in
  let steps := [Acquire (env 0%nat); Acquire (env 1%nat); Acquire (env 2%nat);
                Release 0%nat; Acquire (env 3%nat)] in
  len (snd (fst (client p0 [] steps))) <= 2.
Proof.
  intros p0 env steps.
  exact (proj1 (proj2
           (pool_holds_at_most_maxSize "localhost:8081" 2 p0 steps
              eq_refl eq_refl))).
Defined.

(** X14 (idle connections are reused oldest first).  When the idle queue
    has room, [Put] appends the connection to it; a [Get] that follows
    probes the oldest idle connection and, when a byte can be read from it,
    returns that connection without dialling and leaves the others queued
    in their order. *)
Theorem Get_reuses_oldest_idle (p : ConnectionPool) (c : Conn) (env : Env) :
  len (connections p) < maxSize p ->
  read1 env (hd c (connections p)) = ReadByte ->
  Put p (Some c) = (setConnections p (connections p ++ [c]), [])
  /\ Get (fst (Put p (Some c))) env
     = (inl (hd c (connections p)),
        setConnections p (tl (connections p ++ [c])),
        [EvProbe (hd c (connections p))]).
Proof.
  intros Hroom Hread. unfold Put.
  destruct (Z.ltb_spec (len (connections p)) (maxSize p)); [|lia].
  split; [reflexivity|]. cbn [fst]. unfold Get, isConnectionValid.
  cbn [setConnections connections].
  destruct (connections p) as [|c0 rest]; cbn [app hd tl] in *;
    now rewrite Hread.
Qed.

Lemma Get_reuses_oldest_idle_witness :
  let p := {| address := "localhost:8081"; maxSize := 3;
              connections := [4%nat; 5%nat]; active := 3 |} in
  let env := {| read1 := fun _ => ReadByte; dial := None |} in
  fst (fst (Get (fst (Put p (Some 6%nat))) env)) = inl 4%nat.
Proof.
  intros p env.
  exact (f_equal (fun x => fst (fst x))
           (proj2 (Get_reuses_oldest_idle p 6%nat env eq_refl eq_refl))).
Defined.

(** X15 ([Get] returns a probed or a newly dialled connection).  A
    connection returned by [Get] is either the oldest idle connection,
    from which the probe has read a byte (then nothing is dialled and the
    counter is unchanged), or the connection just dialled (then exactly one
    dial was made, and an idle connection that failed the probe has been
    closed and removed).  [ErrPoolExhausted] is returned without any dial,
    and a dial error after exactly one failed dial. *)
Theorem Get_returns_probed_or_dialled (p : ConnectionPool) (env : Env) :
  match Get p env with
  | (inl c, p', evs) =>
      (exists rest, connections p = c :: rest /\ read1 env c = ReadByte
                    /\ p' = setConnections p rest /\ evs = [EvProbe c])
      \/ (dial env = Some c /\ dials evs = 1
          /\ forall c0 rest, connections p = c0 :: rest ->
               read1 env c0 <> ReadByte /\ In (EvClose c0) evs
               /\ connections p' = rest)
  | (inr ErrPoolExhausted, p', evs) => dials evs = 0
  | (inr ErrDial, p', evs) => dial env = None /\ dials evs = 1
  end.
Proof.
  unfold Get, isConnectionValid, createConnection.
  destruct (connections p) as [|conn rest] eqn:Hq.
  - destruct (active p >=? maxSize p); [reflexivity|].
    destruct (dial env) as [c|]; [|split; reflexivity].
    right. split; [reflexivity|]. split; [reflexivity|]. intros c0 r [=].
  - destruct (read1 env conn) eqn:Hread;
      cbn [setActive setConnections active maxSize address connections].
    + left. exists rest. auto.
    + destruct (_ >=? _); [reflexivity|].
      destruct (dial env) as [c|]; [|split; reflexivity].
      right. split; [reflexivity|]. split; [reflexivity|].
      intros c0 r [= <- <-]. split; [congruence|]. split; [|reflexivity].
      cbn. auto.
    + destruct (_ >=? _); [reflexivity|].
      destruct (dial env) as [c|]; [|split; reflexivity].
      right. split; [reflexivity|]. split; [reflexivity|].
      intros c0 r [= <- <-]. split; [congruence|]. split; [|reflexivity].
      cbn. auto.
Qed.

End ConnectionPoolMore.

(** ** The load test script *)

Section LoadTest.
Import loadtest.

Lemma total_cons d ls : total (d :: ls) = d + total ls.
Proof. reflexivity. Qed.

Lemma total_nonneg ls : Forall (fun d => 0 <= d) ls -> 0 <= total ls.
Proof.
  induction 1 as [|d ls Hd _ IH]; [reflexivity|]. rewrite total_cons. lia.
Qed.

(** The loop of [GetStats] while the running total stays in range. *)
Lemma statsLoop_spec ls : forall mn mx tot,
  mn <= mx ->
  Forall (fun d => 0 <= d) ls ->
  0 <= tot ->
  tot + total ls < 2 ^ 63 ->
  snd (statsLoop ls mn mx tot) = tot + total ls
  /\ fst (fst (statsLoop ls mn mx tot)) <= mn
  /\ mx <= snd (fst (statsLoop ls mn mx tot))
  /\ Forall (fun d => fst (fst (statsLoop ls mn mx tot)) <= d
                      <= snd (fst (statsLoop ls mn mx tot))) ls
  /\ (fst (fst (statsLoop ls mn mx tot)) = mn
      \/ In (fst (fst (statsLoop ls mn mx tot))) ls)
  /\ (snd (fst (statsLoop ls mn mx tot)) = mx
      \/ In (snd (fst (statsLoop ls mn mx tot))) ls).
Proof.
  induction ls as [|d rest IH]; intros mn mx tot Hmm Hpos Htot Hsum.
  - cbn [statsLoop fst snd]. change (total []) with 0.
    split; [lia|]. split; [lia|]. split; [lia|]. split; [constructor|].
    split; now left.
  - inversion Hpos as [|? ? Hd Hrest]; subst.
    pose proof (total_nonneg rest Hrest) as Hnn.
    rewrite total_cons in *.
    cbn [statsLoop]. rewrite wrapInt_small by lia.
    set (mn1 := if d <? mn then d else mn).
    set (mx1 := if d >? mx then d else mx).
    assert (H1 : mn1 <= mn /\ mn1 <= d /\ (mn1 = mn \/ mn1 = d)).
    { unfold mn1. destruct (Z.ltb_spec d mn); lia. }
    assert (H2 : mx <= mx1 /\ d <= mx1 /\ (mx1 = mx \/ mx1 = d)).
    { unfold mx1. destruct (Z.gtb_spec d mx); lia. }
    destruct (IH mn1 mx1 (tot + d)) as (E & Hmn & Hmx & Hall & Hin1 & Hin2);
      [lia | exact Hrest | lia | lia |].
    split; [lia|]. split; [lia|]. split; [lia|].
    split; [constructor; [lia | exact Hall]|].
    split.
    + destruct Hin1 as [E1|Hi]; [|right; now right].
      rewrite E1. destruct H1 as (_ & _ & [->| ->]); [now left | right; now left].
    + destruct Hin2 as [E2|Hi]; [|right; now right].
      rewrite E2. destruct H2 as (_ & _ & [->| ->]); [now left | right; now left].
Qed.

(** X16 (the statistics of the latencies).  [GetStats] of a tracker without
    latencies is (0, 0, 0).  Otherwise, for non-negative latencies whose
    sum fits an [int64], the minimum and the maximum it returns are among
    the latencies recorded and bound all of them, and the average is the
    sum divided by the count, rounded down, between the minimum and the
    maximum. *)
Theorem GetStats_bounds (lt : LatencyTracker) :
  Forall (fun d => 0 <= d) (latencies lt) ->
  total (latencies lt) < 2 ^ 63 ->
  (latencies lt = [] -> GetStats lt = (0, 0, 0))
  /\ (latencies lt <> [] ->
      let mn := fst (fst (GetStats lt)) in
      let mx := snd (fst (GetStats lt)) in
      let avg := snd (GetStats lt) in
      In mn (latencies lt) /\ In mx (latencies lt)
      /\ Forall (fun d => mn <= d <= mx) (latencies lt)
      /\ avg = total (latencies lt) / len (latencies lt)
      /\ mn <= avg <= mx).
Proof.
  intros Hpos Hsum. unfold GetStats.
  destruct (latencies lt) as [|first rest] eqn:Hl.
  - split; [reflexivity|]. intros H. now destruct H.
  - split; [discriminate|]. intros _.
    pose proof (statsLoop_spec (first :: rest) first first 0
                  ltac:(lia) Hpos ltac:(lia) ltac:(lia))
      as (E & Hmn & Hmx & Hall & Hin1 & Hin2).
    destruct (statsLoop (first :: rest) first first 0) as [[mn mx] tot].
    cbn [fst snd] in *. cbv zeta.
    assert (Hn : 0 < len (first :: rest)) by (unfold len; cbn [length]; lia).
    assert (Hnn : 0 <= total (first :: rest)) by now apply total_nonneg.
    split; [destruct Hin1 as [->|?]; [now left | assumption]|].
    split; [destruct Hin2 as [->|?]; [now left | assumption]|].
    split; [exact Hall|].
    rewrite E, Z.add_0_l, Z.quot_div_nonneg by lia.
    split; [reflexivity|].
    assert (Hbounds : len (first :: rest) * mn <= total (first :: rest)
                      <= len (first :: rest) * mx).
    { clear - Hall. induction Hall as [|d ls Hd _ IH].
      - change (len []) with 0. change (total []) with 0. lia.
      - rewrite total_cons.
        replace (len (d :: ls)) with (1 + len ls) by (unfold len; cbn [length]; lia).
        lia. }
    split.
    + apply Z.div_le_lower_bound; lia.
    + apply Z.div_le_upper_bound; lia.
Qed.

Lemma GetStats_bounds_witness :
  let lt := {| latencies := [3 * Millisecond; Millisecond; 8 * Millisecond] |} in
  fst (fst (GetStats lt)) <= snd (GetStats lt) <= snd (fst (GetStats lt)).
Proof.
  intros lt.
  exact (proj2 (proj2 (proj2 (proj2
           (proj2 (GetStats_bounds lt
                     ltac:(repeat constructor; discriminate) eq_refl)
                  ltac:(discriminate)))))).
Defined.

(** The counters after a run of requests, while they stay in range. *)
Lemma performAll_spec reqs : forall results tracker,
  0 <= SuccessRequests results ->
  0 <= FailedRequests results ->
  TotalRequests results = SuccessRequests results + FailedRequests results ->
  TotalRequests results + len reqs < 2 ^ 63 ->
  TotalRequests (fst (performAll results tracker reqs))
    = TotalRequests results + len reqs
  /\ TotalRequests (fst (performAll results tracker reqs))
     = SuccessRequests (fst (performAll results tracker reqs))
       + FailedRequests (fst (performAll results tracker reqs))
  /\ SuccessRequests (fst (performAll results tracker reqs))
     = SuccessRequests results
       + len (List.filter (fun r => match fst r with
                                    | Status code => code =? StatusOK
                                    | RequestError => false
                                    end) reqs)
  /\ latencies (snd (performAll results tracker reqs))
     = latencies tracker ++ map snd reqs.
Proof.
  induction reqs as [|[resp latency] rest IH]; intros results tracker Hs Hf Hacc Hlen.
  - cbn [performAll fst snd List.filter map]. change (len []) with 0.
    rewrite app_nil_r. repeat split; lia.
  - assert (Hl : len ((resp, latency) :: rest) = 1 + len rest)
      by (unfold len; cbn [length]; lia).
    pose proof (len_nonneg rest) as Hnn.
    cbn [performAll]. unfold performRequest, AddInt64, AddLatency.
    cbn [TotalRequests SuccessRequests FailedRequests latencies].
    rewrite (wrapInt_small (TotalRequests results + 1)) by lia.
    destruct resp as [|code]; [|destruct (code =? StatusOK) eqn:Ec];
      cbn [List.filter fst]; rewrite ?Ec;
      match goal with
      | |- context [performAll ?r ?t rest] =>
          specialize (IH r t);
          cbn [TotalRequests SuccessRequests FailedRequests latencies] in IH;
          rewrite ?wrapInt_small in IH by lia;
          destruct IH as (I1 & I2 & I3 & I4); [lia | lia | lia | lia |]
      end;
      rewrite ?wrapInt_small by lia;
      (split; [lia|]); (split; [exact I2|]);
      (split; [rewrite I3; rewrite ?wrapInt_small by lia;
               try replace (len (_ :: List.filter _ rest))
                 with (1 + len (List.filter
                   (fun r => match fst r with
                             | Status code => code =? StatusOK
                             | RequestError => false
                             end) rest))
                 by (unfold len; cbn [length]; lia);
               lia|]);
      rewrite I4, <- app_assoc; reflexivity.
Qed.

(** X17 (the counters of the load test add up).  Starting from zero
    counters and an empty tracker, after any run of fewer than [2^63]
    requests: [TotalRequests] is the number of requests made; every
    request is counted as a success or as a failure, never as both; the
    successes are the responses with status 200; and the tracker holds
    one latency per request, in request order. *)
Theorem performRequest_counts_every_request (reqs : list (Response * Z)) :
  len reqs < 2 ^ 63 ->
  let results := fst (performAll {| TotalRequests := 0; SuccessRequests := 0;
                                    FailedRequests := 0 |}
                                 {| latencies := [] |} reqs) in
  let tracker := snd (performAll {| TotalRequests := 0; SuccessRequests := 0;
                                    FailedRequests := 0 |}
                                 {| latencies := [] |} reqs) in
  TotalRequests results = len reqs
  /\ SuccessRequests results + FailedRequests results = TotalRequests results
  /\ SuccessRequests results
     = len (List.filter (fun r => match fst r with
                                  | Status code => code =? StatusOK
                                  | RequestError => false
                                  end) reqs)
  /\ latencies tracker = map snd reqs.
Proof.
  intros Hlen. cbv zeta.
  destruct (performAll_spec reqs
              {| TotalRequests := 0; SuccessRequests := 0; FailedRequests := 0 |}
              {| latencies := [] |}) as (I1 & I2 & I3 & I4);
    cbn [TotalRequests SuccessRequests FailedRequests]; try lia.
  cbn [TotalRequests SuccessRequests FailedRequests latencies app] in *.
  repeat split; try assumption; lia.
Qed.

Lemma performRequest_counts_every_request_witness :
  let reqs := [(Status 200, Millisecond); (RequestError, 10 * Second);
               (Status 503, 2 * Millisecond)] in
  TotalRequests (fst (performAll {| TotalRequests := 0; SuccessRequests := 0;
                                    FailedRequests := 0 |}
                                 {| latencies := [] |} reqs)) = 3.
Proof.
  intros reqs.
  exact (proj1 (performRequest_counts_every_request reqs eq_refl)).
Defined.

End LoadTest.

(** ** The registry and the checker together *)

Section RegistryAndChecker.
Import backend health.

Variable growCap : nat -> nat.

(** X18 ([AddServer] leaves the existing servers alone).  On a registry
    whose slice is backed by its array and holds valid pointers, also one
    whose servers have been checked, [AddServer] shows the servers it
    showed before, with their flags, followed by the new server, which is
    unhealthy and never checked. *)
Theorem AddServer_appends_unhealthy (m : Manager) (st : Store)
    (address : string) (port : Z) :
  backed st (servers m) ->
  closed st (servers m) ->
  view (snd (AddServer growCap m st address port))
       (servers (fst (AddServer growCap m st address port)))
    = view st (servers m)
      ++ [Some {| Address := address; Port := port; Healthy := false;
                  LastChecked := 0 |}].
Proof.
  intros Hb Hc.
  destruct (addAll_spec growCap [(address, port)] m st Hb Hc) as (Hview & _).
  exact Hview.
Qed.

(** Two lists that agree on a key and carry a flag each: filtering by the
    flags gives the same keys. *)
Lemma filter_keys_agree {A B K} (key : A -> K) (key' : B -> K)
    (flag : A -> bool) (flag' : B -> bool) (xs : list A) : forall ys : list B,
  map (fun x => (key x, flag x)) xs = map (fun y => (key' y, flag' y)) ys ->
  map key (List.filter flag xs) = map key' (List.filter flag' ys).
Proof.
  induction xs as [|x xs IH]; intros [|y ys] H; try discriminate H.
  - reflexivity.
  - cbn [map] in H. injection H as Hk Hf H. cbn [List.filter].
    rewrite Hf. destruct (flag' y); cbn [map]; rewrite ?Hk; now rewrite (IH ys H).
Qed.

Lemma flags_agree (net : Network) (xs : list (option Server)) :
  forall ys : list (option Server),
  map (fmap (fun s => (Address s, Port s, Healthy s))) xs
    = map (fmap (fun s => (Address s, Port s, fst (IsReachable net s)))) ys ->
  map (fun o => (fmap identity o,
                 match o with Some s => Healthy s | None => false end)) xs
    = map (fun o => (fmap identity o,
                     match o with
                     | Some s => fst (IsReachable net s)
                     | None => false
                     end)) ys.
Proof.
  induction xs as [|x xs IH]; intros [|y ys] H; try discriminate H; [reflexivity|].
  cbn [map] in H. injection H as Hhead Htail. cbn [map].
  rewrite (IH ys Htail). f_equal.
  destruct x as [x|], y as [y|]; try discriminate Hhead; [|reflexivity].
  cbn in Hhead. injection Hhead as Ha Hp Hh.
  cbn. unfold identity. now rewrite Ha, Hp, Hh.
Qed.

(** X19 (after a check cycle, [GetHealthyServers] lists the reachable
    servers).  On a registry whose slice is backed by its array and holds
    valid pointers, a check cycle followed by [GetHealthyServers] returns
    the identities of exactly the servers whose probe succeeded in that
    cycle, in registry order. *)
Theorem GetHealthyServers_after_check (c : Checker) (m : Manager)
    (net : Network) (now : Z) (st st1 : Store) (logs : list string) (t : Z) :
  backed st (servers m) ->
  closed st (servers m) ->
  checkAll c m net now st = Returned (st1, logs, t) ->
  exists h st2,
    GetHealthyServers growCap m st1 = Returned (h, st2)
    /\ identities st2 h
       = map (fmap identity)
           (List.filter (fun o => match o with
                                  | Some s => fst (IsReachable net s)
                                  | None => false
                                  end) (view st (servers m))).
Proof.
  intros Hb Hc Hrun.
  destruct (checkAll_spec c m net now st Hc)
    as (st1' & logs' & t' & Hrun' & He & Hc1 & Hflags & _ & _).
  rewrite Hrun in Hrun'. injection Hrun' as <- <- <-.
  assert (Hb1 : backed st1 (servers m)).
  { destruct Hb as (a & Ha & Hl). exists a. split; [|exact Hl].
    assert (Harr : arrays st1 = arrays st).
    { unfold checkAll in Hrun.
      destruct (checkEach_spec c net (elements st (GetAllServers m)) now st Hc)
        as (st' & logs' & t' & Hrun' & Harr & _).
      rewrite Hrun in Hrun'. now injection Hrun' as <- _ _. }
    now rewrite Harr. }
  destruct (GetHealthyServers_spec growCap m st1 Hb1 Hc1)
    as (h & st2 & Hget & _ & Hview & _).
  exists h, st2. split; [exact Hget|].
  unfold identities. rewrite Hview.
  apply (filter_keys_agree (fmap identity) (fmap identity)
           (fun o => match o with Some s => Healthy s | None => false end)
           (fun o => match o with Some s => fst (IsReachable net s) | None => false end)).
  exact (flags_agree net _ _ Hflags).
Qed.

End RegistryAndChecker.

Section RegistryAndCheckerExamples.
Import backend health.

Lemma AddServer_appends_unhealthy_witness :
  let reg := registry doubling [("up"%string, 1)] in
  view (snd (AddServer doubling (fst reg) (snd reg) "down" 2))
       (servers (fst (AddServer doubling (fst reg) (snd reg) "down" 2)))
    = [Some {| Address := "up"; Port := 1; Healthy := false; LastChecked := 0 |};
       Some {| Address := "down"; Port := 2; Healthy := false; LastChecked := 0 |}].
Proof.
  intros reg.
  assert (Hb : backed (snd reg) (servers (fst reg))).
  { exists [Some 0%nat]. split; [reflexivity|]. split; cbn; lia. }
  assert (Hc : closed (snd reg) (servers (fst reg))).
  { repeat constructor; eexists; (split; [reflexivity|]); cbn; lia. }
  exact (AddServer_appends_unhealthy doubling (fst reg) (snd reg) "down" 2 Hb Hc).
Defined.

Lemma GetHealthyServers_after_check_witness :
  let reg := registry doubling [("up"%string, 1); ("down"%string, 2)] in
  let net : Network :=
    fun addr => if String.eqb addr "up:1" then Accepts Millisecond else Silent in
  exists st1 logs t,
    checkAll (NewChecker (30 * Second) (5 * Second)) (fst reg) net 0 (snd reg)
      = Returned (st1, logs, t)
    /\ exists h st2,
         GetHealthyServers doubling (fst reg) st1 = Returned (h, st2)
         /\ identities st2 h = [Some ("up"%string, 1)].
Proof.
  intros reg net.
  assert (Hb : backed (snd reg) (servers (fst reg))).
  { exists [Some 0%nat; Some 1%nat]. split; [reflexivity|]. split; cbn; lia. }
  assert (Hc : closed (snd reg) (servers (fst reg))).
  { repeat constructor; eexists; (split; [reflexivity|]); cbn; lia. }
  do 3 eexists. split; [reflexivity|].
  destruct (GetHealthyServers_after_check doubling
              (NewChecker (30 * Second) (5 * Second)) (fst reg) net 0 (snd reg)
              _ _ _ Hb Hc eq_refl) as (h & st2 & Hget & Hid).
  exists h, st2. split; [exact Hget|]. rewrite Hid. reflexivity.
Defined.

End RegistryAndCheckerExamples.

(** ** The rotation at the wrap-around *)

Section RoundRobinWrap.
Import balancer.

(** The call of a fresh instance that makes the counter wrap to zero
    returns position 0. *)
Lemma nthCall_at_wraparound backends (k : nat) :
  healthyOf backends <> [] ->
  Z.of_nat k = 2 ^ 64 ->
  nthCall NewRoundRobinAlgorithm backends k
    = Returned (Some {| base := healthyOf backends; offset := 0 |}).
Proof.
  intros Hne Hk. unfold nthCall. cbn [SelectBackend RoundRobin_Algorithm].
  rewrite calls_counter by (assumption || (cbn; lia)).
  rewrite rr_select_some by assumption.
  cbn [fst counter NewRoundRobinAlgorithm].
  unfold AddUint64. rewrite Zplus_mod_idemp_l.
  replace (0 + Z.of_nat (pred k) + 1) with (2 ^ 64) by lia.
  rewrite Z.mod_same by lia. rewrite Z.mod_0_l; [reflexivity|].
  apply healthy_len_pos in Hne. lia.
Qed.

(** C10 as stated fails at the wrap-around: over the three healthy test
    backends, call number [2^64] of a fresh instance returns position 0,
    whereas the cycle 1, 2, 0, 1, ... has position [2^64 mod 3 = 1] at
    that call. *)
Lemma rr_cycle_breaks_at_wraparound :
  2 <= len (healthyOf threeHealthy)
  /\ 2 ^ 64 mod len (healthyOf threeHealthy) = 1
  /\ nthCall NewRoundRobinAlgorithm threeHealthy (Z.to_nat (2 ^ 64))
     = Returned (Some {| base := healthyOf threeHealthy; offset := 0 |})
  /\ nthCall NewRoundRobinAlgorithm threeHealthy (Z.to_nat (2 ^ 64))
     <> Returned (Some {| base := healthyOf threeHealthy;
                          offset := 2 ^ 64 mod len (healthyOf threeHealthy) |}).
Proof.
  assert (Hcall : nthCall NewRoundRobinAlgorithm threeHealthy (Z.to_nat (2 ^ 64))
                  = Returned (Some {| base := healthyOf threeHealthy; offset := 0 |})).
  { apply nthCall_at_wraparound; [discriminate|]. apply Z2Nat.id. discriminate. }
  split; [discriminate|]. split; [reflexivity|]. split; [exact Hcall|].
  rewrite Hcall. change (2 ^ 64 mod len (healthyOf threeHealthy)) with 1.
  intros [= E].
Qed.

End RoundRobinWrap.
